(** * erlport: the Erlang external term format codec (erlterms.py)

    A shallow embedding of [priv/python2/erlport/erlterms.py]: the term
    model, [encode_term] / [encode], [decode_term] / [decode], and the
    properties of the codec that the specification states. *)

From Stdlib Require Import String.
From Stdlib Require Import ZArith List Lia Bool.
From Stdlib Require Import Strings.Byte.
Import ListNotations.
Local Open Scope Z_scope.

Set Implicit Arguments.

(** ** Byte strings (Python 2 [str]) *)

Definition bytes := list byte.

(** A byte string written as a literal. *)
Definition bs (s : string) : bytes := list_byte_of_string s.

(** [len(x)] *)
Definition len {A} (l : list A) : Z := Z.of_nat (List.length l).

(** [ord(c)] and ['%c' % n] (for [0 <= n <= 255]; reduced modulo 256 like
    the [struct] byte codes). *)
Definition ord (b : byte) : Z := Z.of_N (Byte.to_N b).

Definition chr (z : Z) : byte :=
  match Byte.of_N (Z.to_N (z mod 256)) with
  | Some b => b
  | None => x00
  end.

(** [string[i:]] and [string[i:j]] for the non-negative indices the codec
    uses. *)
Definition drop (i : Z) (s : bytes) : bytes := skipn (Z.to_nat i) s.

Definition slice (i j : Z) (s : bytes) : bytes :=
  firstn (Z.to_nat (j - i)) (skipn (Z.to_nat i) s).

(** [a == b] on byte strings. *)
Fixpoint bytes_eqb (a b : bytes) : bool :=
  match a, b with
  | [], [] => true
  | x :: a', y :: b' => Byte.eqb x y && bytes_eqb a' b'
  | _, _ => false
  end.

(** [c in s] for a one-character [c]. *)
Definition tag_in (c : byte) (s : bytes) : bool := existsb (Byte.eqb c) s.

(** ** Fixed-width integers ([struct]) *)

(** [n] bytes of [z], least significant first. *)
Fixpoint le_bytes (n : nat) (z : Z) : bytes :=
  match n with
  | O => []
  | S k => chr z :: le_bytes k (Z.shiftr z 8)
  end.

(** The unsigned value of a little-endian byte sequence. *)
Fixpoint le_value (s : bytes) : Z :=
  match s with
  | [] => 0
  | b :: r => ord b + 256 * le_value r
  end.

(** [Struct(">I").pack], [Struct(">H").pack], ... : big-endian, [n] bytes;
    a negative [z] is written in two's complement ([">i"]). *)
Definition pack_be (n : nat) (z : Z) : bytes := rev (le_bytes n z).

(** [Struct(">I").unpack], [Struct(">H").unpack]: big-endian, unsigned. *)
Definition unpack_be (s : bytes) : Z := le_value (rev s).

Definition int2_unpack (s : bytes) : Z := unpack_be s.
Definition int4_unpack (s : bytes) : Z := unpack_be s.

(** [Struct(">i").unpack]: big-endian, signed 32 bits. *)
Definition signed_int4_unpack (s : bytes) : Z :=
  let v := unpack_be s in
  if v <? 2147483648 then v else v - 4294967296.

(** ** Exceptions and results *)

Inductive exn : Type :=
| IncompleteData                 (* class IncompleteData(ValueError) *)
| ValueError (msg : string)
| TypeError (msg : string)
| StructError                    (* struct.error: value out of range *)
| HostError (msg : string).      (* raised inside zlib or cPickle *)

(** The outcome of a call: a value, a raised exception, or (for the
    fuel-indexed decoder only) exhausted fuel. *)
Inductive result (A : Type) : Type :=
| Ok (a : A)
| Raise (e : exn)
| OutOfFuel.

Arguments Raise {A} e.
Arguments OutOfFuel {A}.

Definition bind {A B} (r : result A) (k : A -> result B) : result B :=
  match r with
  | Ok a => k a
  | Raise e => Raise e
  | OutOfFuel => OutOfFuel
  end.

Notation "x <- e ;; k" := (bind e (fun x => k))
  (at level 61, e at next level, right associativity).
Notation "' p <- e ;; k" := (bind e (fun x => match x with p => k end))
  (at level 61, p pattern, e at next level, right associativity).

(** ** Terms *)

(** A Python [str] value held by an [OpaqueObject]: a plain [str] or an
    [Atom] (a subclass of [str]). *)
Inductive pystr : Type :=
| PStr (s : bytes)
| PAtom (s : bytes).

(** The Python values the codec handles. *)
#[local] Set Warnings "-register-all".
Inductive term : Type :=
| Int (z : Z)                                (* int, long *)
| Bool (b : bool)                            (* True, False *)
| NoneV                                      (* None *)
| Float (image : Z)                          (* float, as its IEEE-754 binary64 image *)
| AtomV (s : bytes)                          (* Atom *)
| Str (s : bytes)                            (* str *)
| Unicode (cps : list Z)                     (* unicode, String: its code points *)
| List (l : list term)                       (* list *)
| ImproperList (l : list term) (tail : term) (* ImproperList *)
| Tuple (l : list term)                      (* tuple *)
| Opaque (data : pystr) (language : bytes)   (* OpaqueObject *)
| Native (obj : positive).                   (* any other object, by handle *)

(** What the codec takes from outside the module: [cPickle] and [zlib].
    A call returns a value ([inr]) or raises ([inl]). *)
Class Host : Type := {
  (** [dumps(term, PICKLE_PROTOCOL)]; [None] when it raises. *)
  dumps : positive -> option bytes;
  (** [loads(data)] *)
  loads : bytes -> exn + term;
  (** [compress(string, level)] *)
  compress : bytes -> Z -> exn + bytes;
  (** [d = decompressobj()]: the pair of [d.decompress(s) + d.flush()]
      and [d.unused_data]. *)
  decompressobj : bytes -> exn + bytes * bytes
}.

Definition call {A} (r : exn + A) : result A :=
  match r with
  | inl e => Raise e
  | inr a => Ok a
  end.

(** [OpaqueObject.marker] and [_python] *)
Definition marker : bytes := bs "$erlport.opaque".
Definition python : bytes := bs "python".

Definition term_of_pystr (d : pystr) : term :=
  match d with
  | PStr s => Str s
  | PAtom s => AtomV s
  end.

Definition pystr_bytes (d : pystr) : bytes :=
  match d with
  | PStr s => s
  | PAtom s => s
  end.

(** [Atom.__new__] *)
Definition Atom (s : bytes) : result term :=
  if len s >? 255 then Raise (ValueError "invalid atom length")
  else Ok (AtomV s).

(** [isinstance(t, list)]: [ImproperList] is a subclass of [list]. *)
Definition is_list (t : term) : bool :=
  match t with
  | List _ | ImproperList _ _ => true
  | _ => false
  end.

(** [ImproperList.__init__] *)
Definition ImproperList_init (lst : list term) (tail : term) : result term :=
  match lst with
  | [] => Raise (ValueError "empty list not allowed")
  | _ :: _ =>
      if is_list tail then Raise (TypeError "non list object expected for tail")
      else Ok (ImproperList lst tail)
  end.

(** [OpaqueObject.__init__] *)
Definition OpaqueObject_init (data language : term) : result term :=
  match data with
  | Str s | AtomV s =>
      match language with
      | AtomV l =>
          Ok (Opaque (match data with AtomV _ => PAtom s | _ => PStr s end) l)
      | _ => Raise (TypeError "language must be instance of Atom")
      end
  | _ => Raise (TypeError "data must be instance of str")
  end.

(** [t == s] for a term [t] and a byte string [s] of ASCII characters:
    true for a [str] or [Atom] with these bytes and for the [unicode]
    with these characters. *)
Definition str_eq (t : term) (s : bytes) : bool :=
  match t with
  | AtomV n | Str n => bytes_eqb n s
  | Unicode cps => if list_eq_dec Z.eq_dec cps (map ord s) then true else false
  | _ => false
  end.

(** [isinstance(t, (int, long))], with the integer value: [bool] is a
    subclass of [int]. *)
Definition int_long (t : term) : option Z :=
  match t with
  | Int z => Some z
  | Bool true => Some 1
  | Bool false => Some 0
  | _ => None
  end.

(** ** Encoder *)

(** ["".join(map(f, l))], stopping at the first exception. *)
Definition join_map {A} (f : A -> result bytes) : list A -> result bytes :=
  fix go (l : list A) : result bytes :=
    match l with
    | [] => Ok []
    | x :: r => b <- f x ;; rest <- go r ;; Ok (b ++ rest)
    end.

(** The [try] block of the list branch: every element an [int] or [long],
    then [array('B', term).tostring()]; [None] stands for the caught
    [TypeError] or [OverflowError]. *)
Fixpoint array_B {A} (as_int : A -> option Z) (l : list A) : option bytes :=
  match l with
  | [] => Some []
  | t :: r =>
      match as_int t with
      | Some z =>
          if (0 <=? z) && (z <=? 255)
          then option_map (cons (chr z)) (array_B as_int r)
          else None
      | None => None
      end
  end.

(** The [while term:] loop of the bignum branch: the magnitude bytes,
    least significant first. *)
Fixpoint magnitude_loop (fuel : nat) (term : Z) : bytes :=
  if term =? 0 then []
  else match fuel with
       | O => []
       | S f => chr (Z.land term 255) :: magnitude_loop f (Z.shiftr term 8)
       end.

(** The loop runs once per byte of [term]; its bit length bounds that. *)
Definition magnitude (term : Z) : bytes :=
  magnitude_loop (S (Z.to_nat (Z.log2 term))) term.

(** The [isinstance(term, int_long)] branch of [encode_term]. *)
Definition encode_int (term : Z) : result bytes :=
  if (0 <=? term) && (term <=? 255) then
    Ok ["a"%byte; chr term]
  else if (-2147483648 <=? term) && (term <=? 2147483647) then
    Ok ("b"%byte :: pack_be 4 term)
  else
    let sign := if term >=? 0 then 0 else 1 in
    let term := if term >=? 0 then term else - term in
    let bytes := magnitude term in
    let length := len bytes in
    if length <=? 255 then
      Ok ("n"%byte :: chr length :: chr sign :: bytes)
    else if length <=? 4294967295 then
      Ok ("o"%byte :: pack_be 4 length ++ chr sign :: bytes)
    else Raise (ValueError "invalid integer value").

(** The [isinstance(term, Atom)] branch: [char_int2_pack] raises
    [struct.error] for a length over 65535 (which [Atom.__new__] never
    lets through). *)
Definition encode_atom (term : bytes) : result bytes :=
  if len term >? 65535 then Raise StructError
  else Ok ("d"%byte :: pack_be 2 (len term) ++ term).

(** The [isinstance(term, str)] branch. *)
Definition encode_str (term : bytes) : result bytes :=
  let length := len term in
  if length >? 4294967295 then Raise (ValueError "invalid binary length")
  else Ok ("m"%byte :: pack_be 4 length ++ term).

(** The [isinstance(term, list)] branch, over the encoder [enc] of the
    elements. *)
Definition encode_list {A} (as_int : A -> option Z)
    (enc : A -> result bytes) (term : list A) : result bytes :=
  let length := len term in
  let general :=
    body <- join_map enc term ;;
    Ok ("l"%byte :: pack_be 4 length ++ body ++ ["j"%byte]) in
  match term with
  | [] => Ok ["j"%byte]
  | _ :: _ =>
      if length <=? 65535 then
        match array_B as_int term with
        | Some b => Ok ("k"%byte :: pack_be 2 length ++ b)
        | None => general
        end
      else if length >? 4294967295 then
        Raise (ValueError "invalid list length")
      else general
  end.

(** [OpaqueObject.encode]: for a language other than ["erlang"] it is
    [encode_term((self.marker, self.language, self.data))], a 3-tuple of an
    [Atom], an [Atom] and a [str] (or [Atom]), written out here and shown
    equal to that call in [OpaqueObject_encode_tuple]. *)
Definition OpaqueObject_encode (data : pystr) (language : bytes) : result bytes :=
  if bytes_eqb language (bs "erlang") then Ok (pystr_bytes data)
  else
    m <- encode_atom marker ;;
    l <- encode_atom language ;;
    d <- match data with
         | PStr s => encode_str s
         | PAtom s => encode_atom s
         end ;;
    Ok (["h"%byte; chr 3] ++ m ++ l ++ d).

Section Encoder.
Context {host : Host}.

Fixpoint encode_term (term : term) : result bytes :=
  match term with
  | Tuple l =>
      let arity := len l in
      header <- (if arity <=? 255 then Ok ["h"%byte; chr arity]
                 else if arity <=? 4294967295 then Ok ("i"%byte :: pack_be 4 arity)
                 else Raise (ValueError "invalid tuple arity")) ;;
      body <- join_map encode_term l ;;
      Ok (header ++ body)
  (* Must be before list *)
  | ImproperList l tail =>
      let length := len l in
      if length >? 4294967295 then
        Raise (ValueError "invalid improper list length")
      else
        body <- join_map encode_term l ;;
        t <- encode_term tail ;;
        Ok ("l"%byte :: pack_be 4 length ++ body ++ t)
  | List l => encode_list int_long encode_term l
  (* encode_term(map(ord, term)), a list of ints: [encode_term_unicode] *)
  | Unicode cps => encode_list (@Some Z) encode_int cps
  | AtomV s => encode_atom s
  | Str s => encode_str s
  (* Must be before int type *)
  | Bool true => Ok (["d"%byte; x00; x04] ++ bs "true")
  | Bool false => Ok (["d"%byte; x00; x05] ++ bs "false")
  | Int z => encode_int z
  | Float image => Ok ("F"%byte :: pack_be 8 image)
  | NoneV => Ok (["d"%byte; x00; x09] ++ bs "undefined")
  | Opaque data language => OpaqueObject_encode data language
  | Native obj =>
      match dumps obj with
      | None => Raise (ValueError "unsupported data type")
      | Some data => OpaqueObject_encode (PStr data) python
      end
  end.

(** The [compressed] argument of [encode]: [False], [True], or a level. *)
Inductive compression : Type :=
| CFlag (b : bool)
| CLevel (level : Z).

(** [if compressed:], and the level handed to [compress]. *)
Definition compression_level (c : compression) : option Z :=
  match c with
  | CFlag false => None
  | CFlag true => Some 6    (* default compression level of 6 *)
  | CLevel 0 => None        (* False and 0 do not attempt compression *)
  | CLevel n => Some n
  end.

(** [_int4_pack(ln)] raises [struct.error] beyond 32 bits. *)
Definition int4_pack (z : Z) : result bytes :=
  if (0 <=? z) && (z <=? 4294967295) then Ok (pack_be 4 z) else Raise StructError.

Definition encode (term : term) (compressed : compression) : result bytes :=
  encoded_term <- encode_term term ;;
  let plain := Ok (x83 :: encoded_term) in
  match compression_level compressed with
  | Some level =>
      zlib_term <- call (compress encoded_term level) ;;
      let ln := len encoded_term in
      if len zlib_term + 5 <=? ln then
        (* Compressed term should be smaller *)
        size <- int4_pack ln ;;
        Ok ([x83; "P"%byte] ++ size ++ zlib_term)
      else plain
  | None => plain
  end.
End Encoder.

(** ** Decoder *)

Section Decoder.
Context {host : Host}.

(** [OpaqueObject.decode]; [loads] wants a [str]. *)
Definition decode_opaque (data language : term) : result term :=
  if str_eq language python then
    match data with
    | Str s | AtomV s => call (loads s)
    | _ => Raise (TypeError "loads() argument 1 must be string")
    end
  else OpaqueObject_init data language.

(** The bignum loop [for i in array("B", tail[length-1::-1]): n = (n << 8) | i]. *)
Definition bignum_value (digits : bytes) : Z :=
  fold_left (fun n i => Z.lor (Z.shiftl n 8) (ord i)) (rev digits) 0.

(** [decode_term], indexed by the fuel that bounds its recursion
    ([decode_term] below supplies enough for every input), together with
    its [while length > 0:] loop. *)
Fixpoint decode_term_fuel (fuel : nat) (string : bytes) {struct fuel}
    : result (term * bytes) :=
  match fuel with
  | O => OutOfFuel
  | S fuel' =>
  match string with
  | [] => Raise IncompleteData
  | tag :: _ =>
    if Byte.eqb tag "d" then
      (* ATOM_EXT *)
      let ln := len string in
      if ln <? 3 then Raise IncompleteData else
      let length := int2_unpack (slice 1 3 string) + 3 in
      if ln <? length then Raise IncompleteData else
      let name := slice 3 length string in
      if bytes_eqb name (bs "true") then Ok (Bool true, drop length string)
      else if bytes_eqb name (bs "false") then Ok (Bool false, drop length string)
      else if bytes_eqb name (bs "undefined") then Ok (NoneV, drop length string)
      else a <- Atom name ;; Ok (a, drop length string)
    else if Byte.eqb tag "j" then
      (* NIL_EXT *)
      Ok (List [], drop 1 string)
    else if Byte.eqb tag "k" then
      (* STRING_EXT *)
      let ln := len string in
      if ln <? 3 then Raise IncompleteData else
      let length := int2_unpack (slice 1 3 string) + 3 in
      if ln <? length then Raise IncompleteData else
      Ok (List (map (fun c => Int (ord c)) (slice 3 length string)),
          drop length string)
    else if tag_in tag (bs "lhi") then
      (* LIST_EXT, SMALL_TUPLE_EXT, LARGE_TUPLE_EXT *)
      '(length, tail) <-
        (if Byte.eqb tag "h" then
           if len string <? 2 then Raise IncompleteData
           else Ok (ord (nth 1 string x00), drop 2 string)
         else
           if len string <? 5 then Raise IncompleteData
           else Ok (int4_unpack (slice 1 5 string), drop 5 string)) ;;
      '(lst, tail) <- decode_while fuel' length tail [] ;;
      if Byte.eqb tag "l" then
        match tail with
        | [] => Raise IncompleteData
        | c :: _ =>
            if negb (Byte.eqb c "j") then
              '(improper_tail, tail) <- decode_term_fuel fuel' tail ;;
              il <- ImproperList_init lst improper_tail ;;
              Ok (il, tail)
            else Ok (List lst, drop 1 tail)
        end
      else if (len lst =? 3) && str_eq (nth 0 lst NoneV) marker then
        o <- decode_opaque (nth 2 lst NoneV) (nth 1 lst NoneV) ;;
        Ok (o, tail)
      else Ok (Tuple lst, tail)
    else if Byte.eqb tag "a" then
      (* SMALL_INTEGER_EXT *)
      if len string <? 2 then Raise IncompleteData
      else Ok (Int (ord (nth 1 string x00)), drop 2 string)
    else if Byte.eqb tag "b" then
      (* INTEGER_EXT *)
      if len string <? 5 then Raise IncompleteData
      else Ok (Int (signed_int4_unpack (slice 1 5 string)), drop 5 string)
    else if Byte.eqb tag "m" then
      (* BINARY_EXT *)
      let ln := len string in
      if ln <? 5 then Raise IncompleteData else
      let length := int4_unpack (slice 1 5 string) + 5 in
      if ln <? length then Raise IncompleteData else
      Ok (Str (slice 5 length string), drop length string)
    else if Byte.eqb tag "F" then
      (* NEW_FLOAT_EXT *)
      if len string <? 9 then Raise IncompleteData
      else Ok (Float (unpack_be (slice 1 9 string)), drop 9 string)
    else if tag_in tag (bs "no") then
      (* SMALL_BIG_EXT, LARGE_BIG_EXT *)
      '(length, sign, tail) <-
        (if Byte.eqb tag "n" then
           if len string <? 3 then Raise IncompleteData
           else Ok (ord (nth 1 string x00), ord (nth 2 string x00), drop 3 string)
         else
           if len string <? 6 then Raise IncompleteData
           else Ok (int4_unpack (slice 1 5 string), ord (nth 5 string x00),
                    drop 6 string)) ;;
      if len tail <? length then Raise IncompleteData else
      let n :=
        if length =? 0 then 0
        else
          let n := bignum_value (slice 0 length tail) in
          if sign =? 0 then n else - n in
      Ok (Int n, drop length tail)
    else Raise (ValueError "unsupported data")
  end
  end

with decode_while (fuel : nat) (length : Z) (tail : bytes) (lst : list term)
    {struct fuel} : result (list term * bytes) :=
  if length >? 0 then
    match fuel with
    | O => OutOfFuel
    | S fuel' =>
        '(term, tail) <- decode_term_fuel fuel' tail ;;
        decode_while fuel' (length - 1) tail (lst ++ [term])
    end
  else Ok (lst, tail).

(** Every call consumes at least one byte, so fuel proportional to the
    length of the input is never exhausted ([decode_term_total]). *)
Definition decode_term (string : bytes) : result (term * bytes) :=
  decode_term_fuel (2 * List.length string + 1) string.

Definition decode (string : bytes) : result (term * bytes) :=
  match string with
  | [] => Raise IncompleteData
  | version :: _ =>
      if negb (Byte.eqb version x83) then
        Raise (ValueError "unknown protocol version")
      else if bytes_eqb (slice 1 2 string) (bs "P") then
        (* compressed term *)
        if len string <? 6 then Raise IncompleteData else
        '(term_string, unused_data) <- call (decompressobj (drop 6 string)) ;;
        let uncompressed_size := int4_unpack (slice 2 6 string) in
        if negb (len term_string =? uncompressed_size) then
          Raise (ValueError "invalid compressed tag")
        else
          (* tail data returned by decode_term() can be simple ignored *)
          '(term, _tail) <- decode_term term_string ;;
          Ok (term, unused_data)
      else decode_term (drop 1 string)
  end.
End Decoder.

(** ** Auxiliary definitions for the statements *)

(** The value a bignum body (sign byte, little-endian magnitude) stands
    for. *)
Definition bignum_of (sign : Z) (digits : bytes) : Z :=
  if len digits =? 0 then 0
  else if sign =? 0 then le_value digits else - le_value digits.

(** [r] is what is left of [s] after a prefix (a non-empty one) is taken. *)
Definition suffix (r s : bytes) : Prop := exists p, s = p ++ r.

Definition proper_suffix (r s : bytes) : Prop :=
  exists p, p <> [] /\ s = p ++ r.

(** The byte [array('B', ...)] holds for an element of a compact list. *)
Definition compact_byte (t : term) : byte :=
  match t with
  | Bool true => x01
  | Bool false => x00
  | Int z => chr z
  | _ => x00
  end.

(** A boolean, or an integer in [0, 255]. *)
Definition bool_or_byte (t : term) : Prop :=
  (exists b, t = Bool b) \/ (exists z, t = Int z /\ 0 <= z <= 255).

(** The header of a tuple of [arity] elements: small ([h]) or large ([i]). *)
Definition tuple_header (large : bool) (arity : Z) : bytes :=
  if large then "i"%byte :: pack_be 4 arity else ["h"%byte; chr arity].

(** The wire form of an atom and of a binary. *)
Definition atom_ext (name : bytes) : bytes :=
  "d"%byte :: pack_be 2 (len name) ++ name.

Definition binary_ext (data : bytes) : bytes :=
  "m"%byte :: pack_be 4 (len data) ++ data.

(** The wire form of the data of an [OpaqueObject]. *)
Definition pystr_ext (d : pystr) : bytes :=
  match d with
  | PStr s => binary_ext s
  | PAtom s => atom_ext s
  end.

(** The atom bodies that decode to [True], [False] and [None]. *)
Definition literal_name (name : bytes) : bool :=
  bytes_eqb name (bs "true") || bytes_eqb name (bs "false") ||
  bytes_eqb name (bs "undefined").

(** The list branch of [encode_term] takes the compact string form. *)
Definition compact {A} (as_int : A -> option Z) (l : list A) : bool :=
  (len l <=? 65535) &&
  match array_B as_int l with Some _ => true | None => false end.

Definition is_bool (t : term) : bool :=
  match t with Bool _ => true | _ => false end.

(** What an element of a compact list comes back as. *)
Definition compact_value (t : term) : term :=
  match int_long t with
  | Some z => Int z
  | None => t
  end.

(** The term that decoding the encoding of [t] yields, for the terms of
    [wire_safe] below: text comes back as the list of its code points, the
    atoms [true], [false], [undefined] as [True], [False], [None], and the
    booleans of a compact list as integers. *)
Fixpoint canon (t : term) : term :=
  match t with
  | Unicode cps => List (map Int cps)
  | AtomV s =>
      if bytes_eqb s (bs "true") then Bool true
      else if bytes_eqb s (bs "false") then Bool false
      else if bytes_eqb s (bs "undefined") then NoneV
      else AtomV s
  | List l =>
      if compact int_long l then List (map compact_value l)
      else List (map canon l)
  | ImproperList l tail => ImproperList (map canon l) (canon tail)
  | Tuple l => Tuple (map canon l)
  | _ => t
  end.

(** The data and language of an [OpaqueObject] that travels as the
    3-tuple and comes back as an [OpaqueObject]: a language atom other
    than [erlang] (sent raw) and [python] (unpickled on arrival). *)
Definition opaque_safe (data : pystr) (language : bytes) : bool :=
  (len language <=? 255) && negb (literal_name language) &&
  negb (bytes_eqb language (bs "erlang")) &&
  negb (bytes_eqb language python) &&
  match data with
  | PStr _ => true
  | PAtom s => (len s <=? 255) && negb (literal_name s)
  end.

(** The terms whose encoding the decoder reads back without raising:
    the constructor invariants of [Atom] and [ImproperList] hold, floats
    are 64-bit images, an improper tail does not come back as a list, no
    tuple is taken for an opaque object, and neither [cPickle] nor raw
    [erlang] data is involved. *)
Fixpoint wire_safe (t : term) : bool :=
  match t with
  | Int _ | Bool _ | NoneV | Str _ | Unicode _ => true
  | Float image => (0 <=? image) && (image <? 2 ^ 64)
  | AtomV s => len s <=? 255
  | List l => forallb wire_safe l
  | ImproperList l tail =>
      negb (len l =? 0) && forallb wire_safe l && wire_safe tail &&
      negb (is_list (canon tail))
  | Tuple l =>
      forallb wire_safe l &&
      negb ((len l =? 3) && str_eq (canon (nth 0 l NoneV)) marker)
  | Opaque data language => opaque_safe data language
  | Native _ => false
  end.

(** The terms that are their own canonical form: no text, no atom named
    [true], [false] or [undefined], no boolean in a compact list. *)
Fixpoint canonical (t : term) : bool :=
  match t with
  | Int _ | Bool _ | NoneV | Str _ => true
  | Unicode _ => false
  | Float image => (0 <=? image) && (image <? 2 ^ 64)
  | AtomV s => (len s <=? 255) && negb (literal_name s)
  | List l =>
      forallb canonical l && negb (compact int_long l && existsb is_bool l)
  | ImproperList l tail =>
      negb (len l =? 0) && forallb canonical l && canonical tail &&
      negb (is_list tail)
  | Tuple l =>
      forallb canonical l &&
      negb ((len l =? 3) && str_eq (nth 0 l NoneV) marker)
  | Opaque data language => opaque_safe data language
  | Native _ => false
  end.

(** [s] decodes to [r], with any fuel from some amount on. *)
Definition decodes_to {host : Host} (s : bytes) (r : term * bytes) : Prop :=
  exists f, forall f', (f <= f')%nat -> decode_term_fuel f' s = Ok r.

(** [p] is [e] cut short. *)
Definition strict_prefix (p e : bytes) : Prop :=
  exists q, q <> [] /\ e = p ++ q.

(** The output of [encode] is the compressed envelope. *)
Definition is_compressed (e : bytes) : bool :=
  bytes_eqb (slice 1 2 e) (bs "P").

(** ** A tabulated host

    The values of zlib (1.2) at the inputs the examples below use: the
    15-byte [str] of ['a'], whose term encoding has 20 bytes and deflates
    (level 6) to 15 bytes. *)

Definition sample_str : bytes := repeat "a"%byte 15.

Definition sample_encoded : bytes :=
  ["m"%byte; x00; x00; x00; x0f] ++ sample_str.

(** [compress(sample_encoded, 6)] *)
Definition sample_deflated : bytes :=
  [x78; x9c; xcb; x65; x60; x60; xe0; x4f; x44; x05; x00; x37; x00; x06; x2c].

Definition sample_host : Host := {|
  dumps := fun _ => None;
  loads := fun _ => inl (HostError "not tabulated");
  compress := fun s level =>
    if bytes_eqb s sample_encoded && (level =? 6) then inr sample_deflated
    else inl (HostError "not tabulated");
  decompressobj := fun s =>
    if bytes_eqb s [] then inr ([], [])
    else if bytes_eqb s sample_deflated then inr (sample_encoded, [])
    else inl (HostError "not tabulated")
|}.

(** ** The text wrapper *)

(** What [String.__new__] raises. *)
Inductive string_error : Type :=
| NotTextOrList   (* TypeError("list or unicode object expected") *)
| NotAnInteger    (* TypeError of unichr: an element is not an integer *)
| NotACodePoint.  (* ValueError (OverflowError past a C long) of unichr *)

(** [unichr(t)], for the code points up to [maxunicode] ([sys.maxunicode]
    of the build). *)
Definition unichr (maxunicode : Z) (t : term) : string_error + Z :=
  match int_long t with
  | Some z =>
      if (0 <=? z) && (z <=? maxunicode) then inr z else inl NotACodePoint
  | None => inl NotAnInteger
  end.

(** [u"".join(map(unichr, s))] *)
Fixpoint join_unichr (maxunicode : Z) (s : list term) : string_error + list Z :=
  match s with
  | [] => inr []
  | t :: r =>
      match unichr maxunicode t with
      | inl e => inl e
      | inr c =>
          match join_unichr maxunicode r with
          | inl e => inl e
          | inr cs => inr (c :: cs)
          end
      end
  end.

(** [String.__new__]; a [String] and a [unicode] are both [Unicode] here,
    and an [ImproperList] is a [list]. *)
Definition String_new (maxunicode : Z) (s : term) : string_error + term :=
  match s with
  | Unicode cps => inr (Unicode cps)
  | List l | ImproperList l _ =>
      match join_unichr maxunicode l with
      | inl e => inl e
      | inr cps => inr (Unicode cps)
      end
  | _ => inl NotTextOrList
  end.

(** A host whose pickler knows one object, for the statements about
    unmapped values. *)
Definition pickling_host : Host := {|
  dumps := fun obj => if Pos.eqb obj 1 then Some (bs "pickled") else None;
  loads := fun s =>
    if bytes_eqb s (bs "pickled") then inr (Native 1)
    else inl (HostError "not tabulated");
  compress := fun _ _ => inl (HostError "not tabulated");
  decompressobj := fun _ => inl (HostError "not tabulated")
|}.

(** ** Auxiliary definitions for the further properties *)

(** A result of the decoder, with [q] added to the remainder. *)
Definition with_trailing {A} (q : bytes) (res : result (A * bytes))
    : result (A * bytes) :=
  match res with
  | Ok (a, r) => Ok (a, r ++ q)
  | Raise e => Raise e
  | OutOfFuel => OutOfFuel
  end.

(** The invariants of the values [decode_term] builds: what [Atom],
    [ImproperList] and [OpaqueObject] check, no text, and no tuple that
    would have been taken for an opaque object. *)
Fixpoint decoded_shape (t : term) : bool :=
  match t with
  | Int _ | Bool _ | NoneV | Str _ => true
  | Float image => (0 <=? image) && (image <? 2 ^ 64)
  | AtomV s => (len s <=? 255) && negb (literal_name s)
  | Unicode _ => false
  | List l => forallb decoded_shape l
  | ImproperList l tail =>
      negb (len l =? 0) && forallb decoded_shape l && decoded_shape tail &&
      negb (is_list tail)
  | Tuple l =>
      forallb decoded_shape l &&
      negb ((len l =? 3) && str_eq (nth 0 l NoneV) marker)
  | Opaque data language =>
      (len language <=? 255) && negb (literal_name language) &&
      negb (bytes_eqb language python) &&
      match data with
      | PStr _ => true
      | PAtom s => (len s <=? 255) && negb (literal_name s)
      end
  | Native _ => false
  end.

(** * Properties *)

(** ** Bytes and fixed-width integers *)

Lemma ord_range (b : byte) : 0 <= ord b <= 255.
Proof.
  unfold ord. pose proof (Byte.to_N_bounded b). lia.
Qed.

Lemma chr_ord (b : byte) : chr (ord b) = b.
Proof.
  unfold chr. pose proof (ord_range b).
  rewrite Z.mod_small by lia. unfold ord.
  rewrite N2Z.id, Byte.of_to_N. reflexivity.
Qed.

Lemma ord_chr_mod (z : Z) : ord (chr z) = z mod 256.
Proof.
  unfold chr, ord.
  pose proof (Z.mod_pos_bound z 256 ltac:(lia)) as Hb.
  destruct (Byte.of_N (Z.to_N (z mod 256))) as [b|] eqn:E.
  - apply Byte.to_of_N in E. rewrite E. lia.
  - apply Byte.of_N_None_iff in E. lia.
Qed.

Lemma ord_chr (z : Z) : 0 <= z <= 255 -> ord (chr z) = z.
Proof.
  intros H. rewrite ord_chr_mod. apply Z.mod_small. lia.
Qed.

Lemma ord_inj (a b : byte) : ord a = ord b -> a = b.
Proof.
  intros H. rewrite <- (chr_ord a), <- (chr_ord b), H. reflexivity.
Qed.

Lemma bytes_eqb_refl (a : bytes) : bytes_eqb a a = true.
Proof.
  induction a as [|x a IH]; simpl; [reflexivity|].
  rewrite IH, (Byte.byte_dec_lb (eq_refl x)). reflexivity.
Qed.

Lemma bytes_eqb_eq (a b : bytes) : bytes_eqb a b = true <-> a = b.
Proof.
  split.
  - revert b. induction a as [|x a IH]; intros [|y b]; simpl; try discriminate; auto.
    intros H. apply andb_true_iff in H as [H1 H2].
    apply Byte.byte_dec_bl in H1. apply IH in H2. congruence.
  - intros ->. apply bytes_eqb_refl.
Qed.

Lemma bytes_eqb_neq (a b : bytes) : a <> b -> bytes_eqb a b = false.
Proof.
  intros H. destruct (bytes_eqb a b) eqn:E; [|reflexivity].
  apply bytes_eqb_eq in E. contradiction.
Qed.

Lemma len_nonneg {A} (l : list A) : 0 <= len l.
Proof. unfold len. lia. Qed.

Lemma len_app {A} (a b : list A) : len (a ++ b) = len a + len b.
Proof. unfold len. rewrite length_app. lia. Qed.

Lemma len_cons {A} (x : A) (l : list A) : len (x :: l) = 1 + len l.
Proof. unfold len. cbn [List.length]. lia. Qed.

Lemma length_le_bytes (n : nat) (z : Z) : List.length (le_bytes n z) = n.
Proof.
  revert z. induction n as [|n IH]; intros z; simpl; [reflexivity|].
  now rewrite IH.
Qed.

Lemma length_pack_be (n : nat) (z : Z) : List.length (pack_be n z) = n.
Proof. unfold pack_be. rewrite length_rev. apply length_le_bytes. Qed.

Lemma len_pack_be (n : nat) (z : Z) : len (pack_be n z) = Z.of_nat n.
Proof. unfold len. now rewrite length_pack_be. Qed.

Lemma le_value_nonneg (s : bytes) : 0 <= le_value s.
Proof.
  induction s as [|b s IH]; cbn [le_value]; [lia|].
  pose proof (ord_range b). lia.
Qed.

Lemma le_value_bound (s : bytes) : le_value s < 256 ^ len s.
Proof.
  induction s as [|b s IH].
  - cbn. lia.
  - rewrite len_cons. cbn [le_value].
    pose proof (ord_range b). pose proof (len_nonneg s).
    rewrite Z.pow_add_r by lia. lia.
Qed.

Lemma le_value_le_bytes (n : nat) (z : Z) :
  le_value (le_bytes n z) = z mod 256 ^ Z.of_nat n.
Proof.
  revert z. induction n as [|n IH]; intros z.
  - simpl. now rewrite Z.mod_1_r.
  - cbn [le_bytes le_value]. rewrite IH, ord_chr_mod.
    rewrite Z.shiftr_div_pow2 by lia.
    rewrite Nat2Z.inj_succ, Z.pow_succ_r by lia.
    change (2 ^ 8) with 256.
    rewrite Z.rem_mul_r; [reflexivity | lia |].
    apply Z.pow_pos_nonneg; lia.
Qed.

Lemma unpack_pack_be (n : nat) (z : Z) :
  unpack_be (pack_be n z) = z mod 256 ^ Z.of_nat n.
Proof.
  unfold unpack_be, pack_be. rewrite rev_involutive. apply le_value_le_bytes.
Qed.

Lemma unpack_pack_be_small (n : nat) (z : Z) :
  0 <= z < 256 ^ Z.of_nat n -> unpack_be (pack_be n z) = z.
Proof.
  intros H. rewrite unpack_pack_be. now apply Z.mod_small.
Qed.

Lemma signed_unpack_pack (z : Z) :
  -2147483648 <= z <= 2147483647 -> signed_int4_unpack (pack_be 4 z) = z.
Proof.
  intros H. unfold signed_int4_unpack. rewrite unpack_pack_be.
  change (256 ^ Z.of_nat 4) with 4294967296.
  destruct (Z_lt_le_dec z 0) as [Hn|Hp].
  - replace (z mod 4294967296) with (z + 4294967296).
    + destruct (Z.ltb_spec (z + 4294967296) 2147483648); lia.
    + apply Z.mod_unique with (q := -1); lia.
  - rewrite Z.mod_small by lia.
    destruct (Z.ltb_spec z 2147483648); lia.
Qed.

(** ** The bignum codec *)

Lemma lor_shift_byte (n i : Z) :
  0 <= i <= 255 -> Z.lor (Z.shiftl n 8) i = n * 256 + i.
Proof.
  intros Hi.
  assert (Hland : Z.land (Z.shiftl n 8) i = 0).
  { replace i with (Z.land i (Z.ones 8)).
    - rewrite (Z.land_comm i), Z.land_assoc, Z.land_ones by lia.
      rewrite Z.shiftl_mul_pow2 by lia. rewrite Z.mod_mul by lia.
      apply Z.land_0_l.
    - rewrite Z.land_ones by lia. apply Z.mod_small.
      change (2 ^ 8) with 256. lia. }
  pose proof (Z.add_lor_land (Z.shiftl n 8) i) as H.
  rewrite Hland, Z.add_0_r in H.
  rewrite H, Z.shiftl_mul_pow2 by lia.
  change (2 ^ 8) with 256. lia.
Qed.

Lemma bignum_value_le (digits : bytes) : bignum_value digits = le_value digits.
Proof.
  unfold bignum_value.
  induction digits as [|b r IH]; [reflexivity|].
  cbn [rev le_value]. rewrite fold_left_app. cbn [fold_left].
  rewrite IH, lor_shift_byte by apply ord_range. lia.
Qed.

Lemma le_value_magnitude_loop (fuel : nat) (z : Z) :
  0 <= z < 2 ^ Z.of_nat fuel -> le_value (magnitude_loop fuel z) = z.
Proof.
  revert z. induction fuel as [|f IH]; intros z Hz.
  - simpl in Hz. assert (z = 0) by lia. subst. reflexivity.
  - cbn [magnitude_loop]. destruct (Z.eqb_spec z 0) as [->|Hnz]; [reflexivity|].
    cbn [le_value]. rewrite ord_chr_mod.
    change 255 with (Z.ones 8). rewrite Z.land_ones by lia.
    change (2 ^ 8) with 256. rewrite Z.mod_mod by lia.
    rewrite Z.shiftr_div_pow2 by lia. change (2 ^ 8) with 256.
    rewrite IH.
    + pose proof (Z.div_mod z 256 ltac:(lia)). lia.
    + rewrite Nat2Z.inj_succ, Z.pow_succ_r in Hz by lia.
      split; [apply Z.div_pos; lia|].
      apply Z.div_lt_upper_bound; lia.
Qed.

Lemma le_value_magnitude (z : Z) : 0 <= z -> le_value (magnitude z) = z.
Proof.
  intros Hz. unfold magnitude. apply le_value_magnitude_loop.
  destruct (Z.eq_dec z 0) as [->|Hnz]; [simpl; lia|].
  pose proof (Z.log2_spec z ltac:(lia)) as [_ H].
  pose proof (Z.log2_nonneg z).
  rewrite Nat2Z.inj_succ, Z2Nat.id by lia. lia.
Qed.

(** ** Slices of a buffer laid out as header, body, rest *)

Lemma drop_app (a b : bytes) (n : Z) : n = len a -> drop n (a ++ b) = b.
Proof.
  intros ->. unfold drop, len. rewrite Nat2Z.id.
  rewrite skipn_app, skipn_all, Nat.sub_diag. reflexivity.
Qed.

Lemma slice_app (a b c : bytes) (i j : Z) :
  i = len a -> j = len a + len b -> slice i j (a ++ b ++ c) = b.
Proof.
  intros -> ->. unfold slice.
  fold (drop (len a) (a ++ b ++ c)). rewrite drop_app by reflexivity.
  replace (len a + len b - len a) with (len b) by lia.
  unfold len. rewrite Nat2Z.id, firstn_app, firstn_all, Nat.sub_diag.
  cbn [firstn]. apply app_nil_r.
Qed.

Lemma slice_whole (b : bytes) (i j : Z) (a : bytes) :
  i = len a -> j = len a + len b -> slice i j (a ++ b) = b.
Proof.
  intros Hi Hj. rewrite <- (app_nil_r b) at 1. now apply slice_app.
Qed.

(** Evaluate the tag tests on a known tag. *)
Ltac eval_tags :=
  repeat match goal with
  | |- context [Byte.eqb ?a ?b] =>
      let v := eval vm_compute in (Byte.eqb a b) in
      (first [ constr_eq v true | constr_eq v false ]);
      change (Byte.eqb a b) with v
  | |- context [tag_in ?a (bs ?s)] =>
      let v := eval vm_compute in (tag_in a (bs s)) in
      (first [ constr_eq v true | constr_eq v false ]);
      change (tag_in a (bs s)) with v
  end; cbv iota.

(** Decide an integer comparison from the hypotheses. *)
Ltac by_lia_true c :=
  let H := fresh in
  assert (H : c = true) by
    (first [ apply Z.leb_le | apply Z.ltb_lt | apply Z.gtb_lt | apply Z.geb_le
           | apply Z.eqb_eq ]; lia);
  rewrite H; clear H.

Ltac by_lia_false c :=
  let H := fresh in
  assert (H : c = false) by
    (first [ apply Z.leb_gt | apply Z.ltb_ge | apply Z.eqb_neq
           | rewrite Z.gtb_ltb; apply Z.ltb_ge
           | rewrite Z.geb_leb; apply Z.leb_gt ]; lia);
  rewrite H; clear H.

Ltac decide_tests :=
  repeat match goal with
  | |- context [Z.ltb ?a ?b] =>
      first [ by_lia_true (Z.ltb a b) | by_lia_false (Z.ltb a b) ]
  | |- context [Z.leb ?a ?b] =>
      first [ by_lia_true (Z.leb a b) | by_lia_false (Z.leb a b) ]
  | |- context [Z.gtb ?a ?b] =>
      first [ by_lia_true (Z.gtb a b) | by_lia_false (Z.gtb a b) ]
  | |- context [Z.geb ?a ?b] =>
      first [ by_lia_true (Z.geb a b) | by_lia_false (Z.geb a b) ]
  | |- context [Z.eqb ?a ?b] =>
      first [ by_lia_true (Z.eqb a b) | by_lia_false (Z.eqb a b) ]
  end.

(** The layout [tag, header, body, rest] every length-prefixed form has. *)
Lemma layout (tag : byte) (hdr body rest : bytes) (k : Z) :
  len hdr = k ->
  let string := tag :: hdr ++ body ++ rest in
  len string = 1 + k + len body + len rest /\
  slice 1 (1 + k) string = hdr /\
  slice (1 + k) (1 + k + len body) string = body /\
  drop (1 + k + len body) string = rest /\
  drop (1 + k) string = body ++ rest.
Proof.
  intros Hk string. unfold string. repeat split.
  - rewrite len_cons, !len_app. lia.
  - apply (slice_app [tag]); [reflexivity|]. rewrite Hk. reflexivity.
  - apply (slice_app (tag :: hdr)); rewrite len_cons; lia.
  - rewrite app_comm_cons, app_assoc. apply drop_app.
    rewrite len_app, len_cons. lia.
  - rewrite app_comm_cons. apply drop_app. rewrite len_cons. lia.
Qed.

(** ** The two calls of [encode_term] that the embedding writes out *)

Section Inlined.
Context {host : Host}.

Lemma array_B_map_Int (cps : list Z) :
  array_B int_long (map Int cps) = array_B (@Some Z) cps.
Proof.
  induction cps as [|z cps IH]; [reflexivity|].
  cbn [map array_B int_long]. now rewrite IH.
Qed.

Lemma join_map_map_Int (cps : list Z) :
  join_map encode_term (map Int cps) = join_map encode_int cps.
Proof.
  induction cps as [|z cps IH]; [reflexivity|].
  cbn [map join_map encode_term]. now rewrite IH.
Qed.

(** [isinstance(term, unicode)]: [return encode_term(map(ord, term))]. *)
Lemma encode_term_unicode (cps : list Z) :
  encode_term (Unicode cps) = encode_term (List (map Int cps)).
Proof.
  cbn [encode_term]. unfold encode_list.
  assert (Hlen : len (map Int cps) = len cps)
    by (unfold len; now rewrite length_map).
  rewrite Hlen, array_B_map_Int, join_map_map_Int.
  destruct cps; reflexivity.
Qed.

(** [OpaqueObject.encode]:
    [return encode_term((self.marker, self.language, self.data))]. *)
Lemma OpaqueObject_encode_tuple (data : pystr) (language : bytes) :
  bytes_eqb language (bs "erlang") = false ->
  OpaqueObject_encode data language =
    encode_term (Tuple [AtomV marker; AtomV language; term_of_pystr data]).
Proof.
  intros He. unfold OpaqueObject_encode. rewrite He.
  cbn [encode_term join_map].
  change (len [AtomV marker; AtomV language; term_of_pystr data]) with 3.
  cbn [Z.leb Z.compare Pos.compare Pos.compare_cont bind].
  destruct (encode_atom marker) as [m| |]; cbn [bind]; try reflexivity.
  destruct (encode_atom language) as [l| |]; cbn [bind]; try reflexivity.
  destruct data as [s|s]; cbn [term_of_pystr encode_term].
  - destruct (encode_str s) as [d| |]; cbn [bind]; try reflexivity.
    now rewrite app_nil_r.
  - destruct (encode_atom s) as [d| |]; cbn [bind]; try reflexivity.
    now rewrite app_nil_r.
Qed.
End Inlined.

(** ** Decoding the encoding of a leaf, followed by anything *)

Section Leaves.
Context {host : Host}.
Variable fuel : nat.
Variable rest : bytes.

Lemma decode_atom_ext (name : bytes) :
  len name <= 65535 ->
  decode_term_fuel (S fuel) ("d"%byte :: pack_be 2 (len name) ++ name ++ rest) =
    if bytes_eqb name (bs "true") then Ok (Bool true, rest)
    else if bytes_eqb name (bs "false") then Ok (Bool false, rest)
    else if bytes_eqb name (bs "undefined") then Ok (NoneV, rest)
    else a <- Atom name ;; Ok (a, rest).
Proof.
  intros Hn. pose proof (len_nonneg name). pose proof (len_nonneg rest).
  destruct (layout "d" (pack_be 2 (len name)) name rest (len_pack_be 2 _))
    as (Hlen & Hh & Hb & Hr & _).
  cbn [decode_term_fuel]. eval_tags.
  change (1 + Z.of_nat 2) with 3 in *.
  unfold int2_unpack. rewrite Hh, unpack_pack_be_small
    by (change (256 ^ Z.of_nat 2) with 65536; lia).
  rewrite Hlen. decide_tests.
  rewrite (Z.add_comm (len name) 3), Hb, Hr. reflexivity.
Qed.

Lemma decode_string_ext (b : bytes) :
  len b <= 65535 ->
  decode_term_fuel (S fuel) ("k"%byte :: pack_be 2 (len b) ++ b ++ rest) =
    Ok (List (map (fun c => Int (ord c)) b), rest).
Proof.
  intros Hn. pose proof (len_nonneg b). pose proof (len_nonneg rest).
  destruct (layout "k" (pack_be 2 (len b)) b rest (len_pack_be 2 _))
    as (Hlen & Hh & Hb & Hr & _).
  cbn [decode_term_fuel]. eval_tags.
  change (1 + Z.of_nat 2) with 3 in *.
  unfold int2_unpack. rewrite Hh, unpack_pack_be_small
    by (change (256 ^ Z.of_nat 2) with 65536; lia).
  rewrite Hlen. decide_tests.
  rewrite (Z.add_comm (len b) 3), Hb, Hr. reflexivity.
Qed.

Lemma decode_binary_ext (b : bytes) :
  len b <= 4294967295 ->
  decode_term_fuel (S fuel) ("m"%byte :: pack_be 4 (len b) ++ b ++ rest) =
    Ok (Str b, rest).
Proof.
  intros Hn. pose proof (len_nonneg b). pose proof (len_nonneg rest).
  destruct (layout "m" (pack_be 4 (len b)) b rest (len_pack_be 4 _))
    as (Hlen & Hh & Hb & Hr & _).
  cbn [decode_term_fuel]. eval_tags.
  change (1 + Z.of_nat 4) with 5 in *.
  unfold int4_unpack. rewrite Hh, unpack_pack_be_small
    by (change (256 ^ Z.of_nat 4) with 4294967296; lia).
  rewrite Hlen. decide_tests.
  rewrite (Z.add_comm (len b) 5), Hb, Hr. reflexivity.
Qed.

Lemma decode_nil_ext :
  decode_term_fuel (S fuel) ("j"%byte :: rest) = Ok (List [], rest).
Proof. reflexivity. Qed.

Lemma decode_small_integer_ext (z : Z) :
  0 <= z <= 255 ->
  decode_term_fuel (S fuel) ("a"%byte :: chr z :: rest) = Ok (Int z, rest).
Proof.
  intros Hz. pose proof (len_nonneg rest).
  cbn [decode_term_fuel]. eval_tags.
  rewrite !len_cons. decide_tests.
  cbn [nth]. rewrite ord_chr by lia. reflexivity.
Qed.

Lemma decode_integer_ext (z : Z) :
  -2147483648 <= z <= 2147483647 ->
  decode_term_fuel (S fuel) ("b"%byte :: pack_be 4 z ++ rest) = Ok (Int z, rest).
Proof.
  intros Hz. pose proof (len_nonneg rest).
  destruct (layout "b" (pack_be 4 z) [] rest (len_pack_be 4 _))
    as (Hlen & Hh & _ & _ & Hr).
  cbn [app] in *. cbn [decode_term_fuel]. eval_tags.
  change (1 + Z.of_nat 4) with 5 in *.
  rewrite Hlen, Hh, Hr. change (len (@nil byte)) with 0. decide_tests.
  rewrite signed_unpack_pack by lia. reflexivity.
Qed.

Lemma decode_float_ext (image : Z) :
  0 <= image < 2 ^ 64 ->
  decode_term_fuel (S fuel) ("F"%byte :: pack_be 8 image ++ rest) =
    Ok (Float image, rest).
Proof.
  intros Hz. pose proof (len_nonneg rest).
  destruct (layout "F" (pack_be 8 image) [] rest (len_pack_be 8 _))
    as (Hlen & Hh & _ & _ & Hr).
  cbn [app] in *. cbn [decode_term_fuel]. eval_tags.
  change (1 + Z.of_nat 8) with 9 in *.
  rewrite Hlen, Hh, Hr. change (len (@nil byte)) with 0. decide_tests.
  rewrite unpack_pack_be_small by (change (256 ^ Z.of_nat 8) with (2 ^ 64); lia).
  reflexivity.
Qed.

Lemma decode_small_big_ext (sign : Z) (digits : bytes) :
  len digits <= 255 -> 0 <= sign <= 255 ->
  decode_term_fuel (S fuel)
    ("n"%byte :: chr (len digits) :: chr sign :: digits ++ rest) =
    Ok (Int (bignum_of sign digits), rest).
Proof.
  intros Hn Hs. pose proof (len_nonneg digits). pose proof (len_nonneg rest).
  cbn [decode_term_fuel]. eval_tags.
  rewrite !len_cons, len_app. decide_tests.
  cbn [nth bind]. rewrite !ord_chr by lia.
  change (drop 3 ("n"%byte :: chr (len digits) :: chr sign :: digits ++ rest))
    with (digits ++ rest).
  rewrite len_app. decide_tests.
  rewrite (drop_app digits rest eq_refl).
  unfold bignum_of.
  replace (slice 0 (len digits) (digits ++ rest)) with digits.
  - rewrite bignum_value_le. reflexivity.
  - symmetry. apply (slice_app [] digits rest); cbn; lia.
Qed.

Lemma decode_large_big_ext (sign : Z) (digits : bytes) :
  len digits <= 4294967295 -> 0 <= sign <= 255 ->
  decode_term_fuel (S fuel)
    ("o"%byte :: pack_be 4 (len digits) ++ chr sign :: digits ++ rest) =
    Ok (Int (bignum_of sign digits), rest).
Proof.
  intros Hn Hs. pose proof (len_nonneg digits). pose proof (len_nonneg rest).
  destruct (layout "o" (pack_be 4 (len digits)) [chr sign] (digits ++ rest)
              (len_pack_be 4 _)) as (Hlen & Hh & Hb & Hr & _).
  cbn [app] in *. change (1 + Z.of_nat 4) with 5 in *.
  change (len [chr sign]) with 1 in *. change (5 + 1) with 6 in *.
  cbn [decode_term_fuel]. eval_tags.
  rewrite Hlen, Hh, Hr, len_app. decide_tests.
  unfold int4_unpack. rewrite unpack_pack_be_small
    by (change (256 ^ Z.of_nat 4) with 4294967296; lia).
  cbn [bind]. rewrite len_app. decide_tests.
  rewrite (drop_app digits rest eq_refl).
  assert (Hsign : nth 5 ("o"%byte :: pack_be 4 (len digits) ++
                          chr sign :: digits ++ rest) x00 = chr sign).
  { pose proof (length_pack_be 4 (len digits)) as Hl.
    destruct (pack_be 4 (len digits)) as [|a [|b [|c [|d [|e l]]]]];
      try discriminate Hl. reflexivity. }
  rewrite Hsign, ord_chr by lia.
  unfold bignum_of.
  replace (slice 0 (len digits) (digits ++ rest)) with digits.
  - rewrite bignum_value_le. reflexivity.
  - symmetry. apply (slice_app [] digits rest); cbn; lia.
Qed.
End Leaves.

(** Case analysis on the test or call at the head of [H]. *)
Ltac step H :=
  match type of H with
  | (if ?c then _ else _) = _ => let E := fresh "E" in destruct c eqn:E
  | bind ?e _ = _ =>
      let E := fresh "E" in destruct e as [?| |] eqn:E; cbn [bind] in H
  | (match ?x with _ => _ end) = _ => let E := fresh "E" in destruct x eqn:E
  | Raise _ = Ok _ => discriminate H
  | OutOfFuel = Ok _ => discriminate H
  end.

(** ** Every decoded term consumes a non-empty prefix *)

Section Consumption.
Context {host : Host}.

Lemma drop_proper_suffix (k : Z) (s : bytes) :
  0 < k <= len s -> proper_suffix (drop k s) s.
Proof.
  intros Hk. exists (firstn (Z.to_nat k) s). split.
  - intros E. apply (f_equal (@List.length byte)) in E.
    rewrite length_firstn in E. unfold len in Hk. cbn in E. lia.
  - unfold drop. symmetry. apply firstn_skipn.
Qed.

Lemma drop_suffix (k : Z) (s : bytes) : suffix (drop k s) s.
Proof.
  exists (firstn (Z.to_nat k) s). unfold drop. symmetry. apply firstn_skipn.
Qed.

Lemma suffix_trans a b c : suffix a b -> suffix b c -> suffix a c.
Proof. intros [p ->] [q ->]. exists (q ++ p). now rewrite app_assoc. Qed.

Lemma proper_suffix_l a b c : proper_suffix a b -> suffix b c -> proper_suffix a c.
Proof.
  intros (p & Hp & ->) [q ->]. exists (q ++ p). split.
  - intros E. apply app_eq_nil in E. tauto.
  - now rewrite app_assoc.
Qed.

Lemma proper_suffix_r a b c : suffix a b -> proper_suffix b c -> proper_suffix a c.
Proof.
  intros [p ->] (q & Hq & ->). exists (q ++ p). split.
  - intros E. apply app_eq_nil in E. tauto.
  - now rewrite app_assoc.
Qed.

Lemma proper_suffix_suffix a b : proper_suffix a b -> suffix a b.
Proof. intros (p & _ & ->). now exists p. Qed.

Lemma decode_consumes (fuel : nat) :
  (forall string t r, decode_term_fuel fuel string = Ok (t, r) ->
     proper_suffix r string) /\
  (forall length tail lst lst' r,
     decode_while fuel length tail lst = Ok (lst', r) -> suffix r tail).
Proof.
  induction fuel as [|f [IHt IHw]]; split.
  - discriminate.
  - intros length tail lst lst' r H. cbn [decode_while] in H.
    destruct (length >? 0); [discriminate|]. inversion H; subst. now exists [].
  - intros string t r H. cbn [decode_term_fuel] in H.
    destruct string as [|tag s']; [discriminate|].
    set (string := tag :: s') in *.
    repeat step H;
    try (inversion H; subst; clear H; apply drop_proper_suffix;
         rewrite ?Z.ltb_ge in *;
         pose proof (le_value_nonneg (rev (slice 1 3 string)));
         pose proof (le_value_nonneg (rev (slice 1 5 string)));
         unfold int2_unpack, int4_unpack, unpack_be in *;
         unfold string in *; rewrite ?len_cons in *;
         pose proof (len_nonneg s'); lia).
    1-4: assert (Hh : proper_suffix b string)
      by (repeat step E3; inversion E3; subst; apply drop_proper_suffix;
          rewrite ?Z.ltb_ge in *; lia).
    1-4: apply IHw in E5.
    + apply IHt in E10. inversion H; subst.
      eapply proper_suffix_l; [eassumption|].
      eapply suffix_trans; [eassumption|]. now apply proper_suffix_suffix.
    + inversion H; subst. eapply proper_suffix_r; [|eassumption].
      eapply suffix_trans; [|eassumption]. apply drop_suffix.
    + inversion H; subst. eapply proper_suffix_r; eassumption.
    + inversion H; subst. eapply proper_suffix_r; eassumption.
    + assert (Hh : proper_suffix b string)
        by (repeat step E8; inversion E8; subst; apply drop_proper_suffix;
            rewrite ?Z.ltb_ge in *; lia).
      inversion H; subst. eapply proper_suffix_r; [apply drop_suffix|eassumption].
  - intros length tail lst lst' r H. cbn [decode_while] in H.
    repeat step H.
    + apply IHt in E0. apply IHw in H.
      eapply suffix_trans; [eassumption|]. now apply proper_suffix_suffix.
    + inversion H; subst. now exists [].
Qed.
End Consumption.

(** ** Fuel: more never changes a result, and the length of the input
    bounds what is needed *)

Section Fuel.
Context {host : Host}.

Lemma suffix_length r s : suffix r s -> (List.length r <= List.length s)%nat.
Proof. intros [p ->]. rewrite length_app. lia. Qed.

Lemma proper_suffix_length r s :
  proper_suffix r s -> (List.length r < List.length s)%nat.
Proof.
  intros (p & Hp & ->). rewrite length_app.
  destruct p; [contradiction|]. cbn. lia.
Qed.

Ltac lockstep IHt IHw :=
  repeat match goal with
  | |- _ <> _ -> ?x = ?x => reflexivity
  | |- OutOfFuel <> OutOfFuel -> _ => intros C; contradiction
  | |- (if ?c then _ else _) <> _ -> _ => destruct c
  | |- bind (decode_while ?f ?n ?t ?l) _ <> _ -> _ =>
      let R := fresh "R" in
      destruct (decode_while f n t l) as [[? ?]| |] eqn:R;
      [ rewrite (IHw f n t l) by (try lia; rewrite R; discriminate);
        rewrite R; cbn [bind]
      | rewrite (IHw f n t l) by (try lia; rewrite R; discriminate);
        rewrite R; cbn [bind]
      | cbn [bind] ]
  | |- bind (decode_term_fuel ?f ?s) _ <> _ -> _ =>
      let R := fresh "R" in
      destruct (decode_term_fuel f s) as [[? ?]| |] eqn:R;
      [ rewrite (IHt f s) by (try lia; rewrite R; discriminate);
        rewrite R; cbn [bind]
      | rewrite (IHt f s) by (try lia; rewrite R; discriminate);
        rewrite R; cbn [bind]
      | cbn [bind] ]
  | |- bind ?e _ <> _ -> _ => destruct e as [?| |]; cbn [bind]
  | |- (match ?s with _ => _ end) <> _ -> _ => destruct s
  end.

Lemma fuel_mono (f : nat) :
  (forall f' s, (f <= f')%nat -> decode_term_fuel f s <> OutOfFuel ->
     decode_term_fuel f' s = decode_term_fuel f s) /\
  (forall f' n tail lst, (f <= f')%nat -> decode_while f n tail lst <> OutOfFuel ->
     decode_while f' n tail lst = decode_while f n tail lst).
Proof.
  induction f as [|f [IHt IHw]]; split.
  - intros f' s _ H. now contradiction H.
  - intros f' n tail lst _. destruct f'; cbn [decode_while];
      destruct (n >? 0); intros H; try reflexivity; now contradiction H.
  - intros [|f'] s Hle; [lia|]. assert (Hf : (f <= f')%nat) by lia.
    pose proof (fun s => IHt f' s Hf) as IHt'.
    pose proof (fun n t l => IHw f' n t l Hf) as IHw'.
    cbn [decode_term_fuel].
    lockstep (fun (f0 : nat) s => IHt' s) (fun (f0 : nat) n t l => IHw' n t l).
  - intros [|f'] n tail lst Hle; [lia|]. assert (Hf : (f <= f')%nat) by lia.
    pose proof (fun s => IHt f' s Hf) as IHt'.
    pose proof (fun n t l => IHw f' n t l Hf) as IHw'.
    cbn [decode_while].
    destruct (n >? 0); [|reflexivity].
    destruct (decode_term_fuel f tail) as [[t r]| |] eqn:R.
    + rewrite IHt', R by (rewrite R; discriminate). cbn [bind]. apply IHw'.
    + rewrite IHt', R by (rewrite R; discriminate). reflexivity.
    + cbn [bind]. intros C; contradiction.
Qed.

Lemma Atom_not_fuel s : Atom s <> OutOfFuel.
Proof. unfold Atom. destruct (len s >? 255); discriminate. Qed.

Lemma ImproperList_init_not_fuel l t : ImproperList_init l t <> OutOfFuel.
Proof.
  unfold ImproperList_init. destruct l; [discriminate|].
  destruct (is_list t); discriminate.
Qed.

Lemma decode_opaque_not_fuel d l : decode_opaque d l <> OutOfFuel.
Proof.
  unfold decode_opaque, OpaqueObject_init.
  destruct (str_eq l python).
  - destruct d; try discriminate; destruct (loads s); discriminate.
  - destruct d; try discriminate; destruct l; discriminate.
Qed.

Lemma fuel_enough (fuel : nat) :
  (forall s, (2 * List.length s + 1 <= fuel)%nat ->
     decode_term_fuel fuel s <> OutOfFuel) /\
  (forall n tail lst, (2 * List.length tail + 2 <= fuel)%nat ->
     decode_while fuel n tail lst <> OutOfFuel).
Proof.
  induction fuel as [|f [IHt IHw]]; split.
  - intros s H. lia.
  - intros n tail lst H. lia.
  - intros s Hf. destruct s as [|tag s']; [discriminate|].
    assert (Hd : forall k b, 2 <= k -> suffix b (drop k (tag :: s')) ->
              (2 * List.length b + 2 <= f)%nat).
    { intros k b Hk Hb. apply suffix_length in Hb.
      unfold drop in Hb. rewrite length_skipn in Hb.
      cbn [List.length] in *. lia. }
    cbn [decode_term_fuel].
    repeat match goal with
    | |- Ok _ <> _ => discriminate
    | |- Raise _ <> _ => discriminate
    | |- (if ?c then _ else _) <> _ => destruct c eqn:?
    | |- bind (call ?e) _ <> _ => destruct e; cbn [bind call]
    | |- bind ?e _ <> _ =>
        let E := fresh "E" in
        first [ destruct e as [[? ?]| |] eqn:E | destruct e as [?| |] eqn:E ];
        cbn [bind]
    | |- (match ?s with _ => _ end) <> _ => destruct s eqn:?
    end.
    all: exfalso.
    all: try match goal with
      | E : Atom _ = OutOfFuel |- _ => exact (Atom_not_fuel _ E)
      | E : ImproperList_init _ _ = OutOfFuel |- _ =>
          exact (ImproperList_init_not_fuel _ _ E)
      | E : decode_opaque _ _ = OutOfFuel |- _ =>
          exact (decode_opaque_not_fuel _ _ E)
      end.
    all: try match goal with
      | E : (if _ then _ else _) = OutOfFuel |- _ =>
          repeat step E; discriminate E
      end.

    all: match goal with
      | E : (if _ then _ else _) = Ok (_, ?b) |- _ =>
          assert (Hb : exists k, 2 <= k /\ b = drop k (tag :: s'))
            by (repeat step E; inversion E; subst;
                (eexists; split; [|reflexivity]); lia);
          destruct Hb as (k & Hk & ->)
      end.
    + apply (IHt _) in E1; [exact E1|].
      apply (proj2 (decode_consumes f)) in E0.
      pose proof (Hd k _ Hk E0). lia.
    + apply (IHw _ _ _) in E0; [exact E0|].
      apply (Hd k _ Hk). now exists [].
  - intros n tail lst Hf. cbn [decode_while].
    destruct (n >? 0); [|discriminate].
    destruct (decode_term_fuel f tail) as [[t r]| |] eqn:E; cbn [bind].
    + apply IHw. apply (proj1 (decode_consumes f)) in E.
      apply proper_suffix_length in E. lia.
    + discriminate.
    + intros _. apply (IHt tail); [lia|exact E].
Qed.

Lemma decode_term_total (s : bytes) : decode_term s <> OutOfFuel.
Proof. apply (proj1 (fuel_enough _)). lia. Qed.

Lemma fuel_agree (f : nat) (s : bytes) (r : result (term * bytes)) :
  decode_term_fuel f s = r -> r <> OutOfFuel -> decode_term s = r.
Proof.
  intros <- Hr. unfold decode_term.
  destruct (Nat.le_ge_cases f (2 * List.length s + 1)) as [Hle|Hge].
  - now apply (proj1 (fuel_mono f)).
  - symmetry. apply (proj1 (fuel_mono _)); [exact Hge|].
    apply decode_term_total.
Qed.
End Fuel.

(** ** Induction on terms *)

Section Induction.
Variable P : term -> Prop.
Hypothesis HInt : forall z, P (Int z).
Hypothesis HBool : forall b, P (Bool b).
Hypothesis HNone : P NoneV.
Hypothesis HFloat : forall i, P (Float i).
Hypothesis HAtom : forall s, P (AtomV s).
Hypothesis HStr : forall s, P (Str s).
Hypothesis HUnicode : forall cps, P (Unicode cps).
Hypothesis HList : forall l, Forall P l -> P (List l).
Hypothesis HImproper : forall l tail, Forall P l -> P tail -> P (ImproperList l tail).
Hypothesis HTuple : forall l, Forall P l -> P (Tuple l).
Hypothesis HOpaque : forall d l, P (Opaque d l).
Hypothesis HNative : forall o, P (Native o).

(** Induction on terms, with the hypothesis for every element of a list,
  improper list or tuple. *)
Lemma term_nested_ind (t : term) : P t.
Proof.
revert t. fix IH 1.
assert (Hall : forall l, Forall P l).
{ intros l. induction l as [|x l IHl]; constructor; [apply IH|exact IHl]. }
intros [z|b| |i|s|s|cps|l|l tail|l|d l|o].
- apply HInt.
- apply HBool.
- apply HNone.
- apply HFloat.
- apply HAtom.
- apply HStr.
- apply HUnicode.
- apply HList, Hall.
- apply HImproper; [apply Hall|apply IH].
- apply HTuple, Hall.
- apply HOpaque.
- apply HNative.
Qed.
End Induction.

(** From [Ok x = Ok b], replace [b] without unfolding [x]. *)
Ltac ok_subst H :=
  match type of H with
  | Ok ?x = Ok ?b => assert (x = b) by congruence; subst b; clear H
  end.

(** ** Reading back what the encoder wrote *)

Section Integers.
Context {host : Host}.

Lemma decodes_any_fuel (s : bytes) (r : term * bytes) :
  (forall f, decode_term_fuel (S f) s = Ok r) -> decodes_to s r.
Proof.
  intros H. exists 1%nat. intros [|f'] Hf; [lia|]. apply H.
Qed.

Lemma decodes_fuel (f : nat) (s : bytes) (r : term * bytes) :
  decode_term_fuel f s = Ok r -> decodes_to s r.
Proof.
  intros H. exists f. intros f' Hf.
  rewrite (proj1 (fuel_mono f) f' s Hf); [exact H|]. rewrite H. discriminate.
Qed.

Lemma decodes_decode_term (s : bytes) (r : term * bytes) :
  decodes_to s r -> decode_term s = Ok r.
Proof.
  intros [f H]. apply (fuel_agree f); [|discriminate]. apply H. lia.
Qed.

Lemma magnitude_nonempty (z : Z) : 0 < z -> 0 < len (magnitude z).
Proof.
  intros Hz.
  assert (H : le_value (magnitude z) = z) by (apply le_value_magnitude; lia).
  destruct (magnitude z) as [|x l]; [cbn in H; lia|]. rewrite len_cons.
  pose proof (len_nonneg l). lia.
Qed.

Lemma decode_encode_int (z : Z) (b rest : bytes) (f : nat) :
  encode_int z = Ok b -> decode_term_fuel (S f) (b ++ rest) = Ok (Int z, rest).
Proof.
  unfold encode_int.
  destruct ((0 <=? z) && (z <=? 255)) eqn:E1.
  { intros H. inversion H; subst. apply andb_true_iff in E1 as [H1 H2].
    apply Z.leb_le in H1, H2. cbn [app]. apply decode_small_integer_ext. lia. }
  destruct ((-2147483648 <=? z) && (z <=? 2147483647)) eqn:E2.
  { intros H. inversion H; subst. apply andb_true_iff in E2 as [H1 H2].
    apply Z.leb_le in H1, H2. cbn [app]. apply decode_integer_ext. lia. }
  assert (Hz : z < -2147483648 \/ 2147483647 < z).
  { apply andb_false_iff in E2 as [H|H]; apply Z.leb_gt in H; lia. }
  set (sign := if z >=? 0 then 0 else 1).
  set (m := if z >=? 0 then z else - z).
  assert (Hm : 0 < m /\ z = if sign =? 0 then m else - m).
  { unfold m, sign. destruct (Z.geb_spec z 0); cbn; lia. }
  destruct Hm as [Hm Hzm].
  assert (Hs : 0 <= sign <= 255) by (unfold sign; destruct (z >=? 0); lia).
  assert (Hv : le_value (magnitude m) = m) by (apply le_value_magnitude; lia).
  pose proof (magnitude_nonempty Hm) as Hne.
  assert (Hval : bignum_of sign (magnitude m) = z).
  { unfold bignum_of. destruct (Z.eqb_spec (len (magnitude m)) 0); [lia|].
    rewrite Hv. symmetry. exact Hzm. }
  destruct (len (magnitude m) <=? 255) eqn:E3.
  { intros H. injection H as <-. apply Z.leb_le in E3. cbn [app].
    rewrite decode_small_big_ext by lia. now rewrite Hval. }
  destruct (len (magnitude m) <=? 4294967295) eqn:E4; [|discriminate].
  intros H. assert (Hb : "o"%byte :: pack_be 4 (len (magnitude m)) ++
                           chr sign :: magnitude m = b) by congruence.
  subst b. apply Z.leb_le in E4. cbn [app].
  rewrite <- app_assoc. cbn [app].
  rewrite decode_large_big_ext by lia. now rewrite Hval.
Qed.
End Integers.

Section TupleForms.
Context {host : Host}.

Lemma decode_atom_plain (fuel : nat) (name rest : bytes) :
  len name <= 255 -> literal_name name = false ->
  decode_term_fuel (S fuel) (atom_ext name ++ rest) = Ok (AtomV name, rest).
Proof.
  intros Hlen Hlit. unfold atom_ext. cbn [app]. rewrite <- app_assoc.
  rewrite decode_atom_ext by lia.
  unfold literal_name in Hlit.
  apply orb_false_iff in Hlit as [Hlit Hu]. apply orb_false_iff in Hlit as [Ht Hf].
  rewrite Ht, Hf, Hu. unfold Atom.
  destruct (Z.gtb_spec (len name) 255); [lia|]. reflexivity.
Qed.

Lemma decode_binary_plain (fuel : nat) (data rest : bytes) :
  len data <= 4294967295 ->
  decode_term_fuel (S fuel) (binary_ext data ++ rest) = Ok (Str data, rest).
Proof.
  intros Hlen. unfold binary_ext. cbn [app]. rewrite <- app_assoc.
  now apply decode_binary_ext.
Qed.

Lemma decode_tuple_header (large : bool) (arity : Z) (body : bytes) (fuel : nat) :
  0 <= arity <= (if large then 4294967295 else 255) ->
  decode_term_fuel (S fuel) (tuple_header large arity ++ body) =
    '(lst, tail) <- decode_while fuel arity body [] ;;
    if (len lst =? 3) && str_eq (nth 0 lst NoneV) marker then
      o <- decode_opaque (nth 2 lst NoneV) (nth 1 lst NoneV) ;; Ok (o, tail)
    else Ok (Tuple lst, tail).
Proof.
  intros Ha. pose proof (len_nonneg body). destruct large; unfold tuple_header.
  - destruct (layout "i" (pack_be 4 arity) [] body (len_pack_be 4 _))
      as (Hlen & Hh & _ & _ & Hr).
    cbn [app] in *. cbn [decode_term_fuel]. eval_tags.
    change (1 + Z.of_nat 4) with 5 in *.
    rewrite Hlen, Hh, Hr. change (len (@nil byte)) with 0. decide_tests.
    unfold int4_unpack. rewrite unpack_pack_be_small
      by (change (256 ^ Z.of_nat 4) with 4294967296; lia).
    reflexivity.
  - cbn [app decode_term_fuel]. eval_tags.
    rewrite !len_cons. decide_tests. cbn [nth bind].
    rewrite ord_chr by lia. reflexivity.
Qed.

Lemma decode_opaque_tuple (large : bool) (data : pystr) (language rest : bytes)
    (f : nat) :
  len language <= 255 -> literal_name language = false ->
  match data with
  | PStr s => len s <= 4294967295
  | PAtom s => len s <= 255 /\ literal_name s = false
  end ->
  decode_term_fuel (S (S (S (S (S f)))))
    (tuple_header large 3 ++ atom_ext marker ++ atom_ext language ++
     pystr_ext data ++ rest) =
    o <- decode_opaque (term_of_pystr data) (AtomV language) ;; Ok (o, rest).
Proof.
  intros Hl Hlit Hd.
  rewrite decode_tuple_header by (destruct large; lia).
  cbn [decode_while]. decide_tests.
  rewrite decode_atom_plain by (vm_compute; try discriminate; reflexivity).
  cbn [bind]. decide_tests.
  rewrite decode_atom_plain by assumption.
  cbn [bind]. decide_tests.
  assert (Hdata : decode_term_fuel (S f) (pystr_ext data ++ rest) =
                  Ok (term_of_pystr data, rest)).
  { destruct data as [s|s]; cbn [pystr_ext term_of_pystr].
    - now apply decode_binary_plain.
    - destruct Hd. now apply decode_atom_plain. }
  rewrite Hdata. cbn [bind app]. decide_tests. cbn [bind app nth].
  change (len [AtomV marker; AtomV language; term_of_pystr data]) with 3.
  change (str_eq (AtomV marker) marker) with (bytes_eqb marker marker).
  rewrite bytes_eqb_refl. reflexivity.
Qed.
End TupleForms.

Section Lists.
Context {host : Host}.

Lemma decode_while_done (f : nat) (n : Z) (tail : bytes) (lst : list term) :
  n <= 0 -> decode_while f n tail lst = Ok (lst, tail).
Proof.
  intros Hn. destruct f; cbn [decode_while]; decide_tests; reflexivity.
Qed.

Lemma decode_while_step (f : nat) (n : Z) (tail : bytes) (lst : list term) :
  0 < n ->
  decode_while (S f) n tail lst =
    '(term, tail') <- decode_term_fuel f tail ;;
    decode_while f (n - 1) tail' (lst ++ [term]).
Proof.
  intros Hn. cbn [decode_while]. decide_tests. reflexivity.
Qed.

(** The loop over the children reads back what [join_map] wrote. *)
Lemma decode_children {A} (enc : A -> result bytes) (val : A -> term)
    (l : list A) :
  Forall (fun x => forall b rest, enc x = Ok b ->
            decodes_to (b ++ rest) (val x, rest)) l ->
  forall body rest acc, join_map enc l = Ok body ->
  exists f, forall f', (f <= f')%nat ->
    decode_while f' (len l) (body ++ rest) acc = Ok (acc ++ map val l, rest).
Proof.
  induction 1 as [|x r Hx _ IH]; intros body rest acc Hj.
  - cbn in Hj. injection Hj as <-. exists 0%nat. intros f' _.
    rewrite decode_while_done by (cbn; lia). cbn [map app].
    now rewrite app_nil_r.
  - cbn [join_map] in Hj.
    destruct (enc x) as [b| |] eqn:Ex; cbn [bind] in Hj; try discriminate.
    destruct (join_map enc r) as [bs| |] eqn:Er; cbn [bind] in Hj;
      try discriminate.
    assert (body = b ++ bs) by congruence. subst body. clear Hj.
    destruct (Hx b (bs ++ rest) eq_refl) as [f1 H1].
    destruct (IH bs rest (acc ++ [val x]) eq_refl) as [f2 H2].
    exists (S (Nat.max f1 f2)). intros [|f'] Hf; [lia|].
    pose proof (len_nonneg r).
    rewrite decode_while_step by (rewrite len_cons; lia).
    rewrite <- app_assoc, H1 by lia. cbn [bind].
    replace (len (x :: r) - 1) with (len r) by (rewrite len_cons; lia).
    rewrite H2 by lia. cbn [map]. now rewrite <- app_assoc.
Qed.

Lemma array_B_map {A} (as_int : A -> option Z) (cval : A -> term)
    (l : list A) (b : bytes) :
  (forall x z, as_int x = Some z -> cval x = Int z) ->
  array_B as_int l = Some b ->
  map (fun c => Int (ord c)) b = map cval l /\ len b = len l.
Proof.
  intros Hc. revert b. induction l as [|x l IH]; intros b H.
  - cbn in H. injection H as <-. split; reflexivity.
  - cbn [array_B] in H. destruct (as_int x) as [z|] eqn:Ex; [|discriminate].
    destruct ((0 <=? z) && (z <=? 255)) eqn:Ez; [|discriminate].
    destruct (array_B as_int l) as [b'|]; [|discriminate].
    cbn in H. injection H as <-.
    apply andb_true_iff in Ez as [H1 H2]. apply Z.leb_le in H1, H2.
    destruct (IH b' eq_refl) as [IH1 IH2]. split.
    + cbn [map]. rewrite IH1, ord_chr, (Hc x z Ex) by lia. reflexivity.
    + rewrite !len_cons. lia.
Qed.

Lemma decode_list_header (n : Z) (body : bytes) (fuel : nat) :
  0 <= n <= 4294967295 ->
  decode_term_fuel (S fuel) ("l"%byte :: pack_be 4 n ++ body) =
    '(lst, tail) <- decode_while fuel n body [] ;;
    match tail with
    | [] => Raise IncompleteData
    | c :: _ =>
        if negb (Byte.eqb c "j") then
          '(improper_tail, tail') <- decode_term_fuel fuel tail ;;
          il <- ImproperList_init lst improper_tail ;;
          Ok (il, tail')
        else Ok (List lst, drop 1 tail)
    end.
Proof.
  intros Ha. pose proof (len_nonneg body).
  destruct (layout "l" (pack_be 4 n) [] body (len_pack_be 4 _))
    as (Hlen & Hh & _ & _ & Hr).
  cbn [app] in *. cbn [decode_term_fuel]. eval_tags.
  change (1 + Z.of_nat 4) with 5 in *.
  rewrite Hlen, Hh, Hr. change (len (@nil byte)) with 0. decide_tests.
  unfold int4_unpack. rewrite unpack_pack_be_small
    by (change (256 ^ Z.of_nat 4) with 4294967296; lia).
  reflexivity.
Qed.

(** The list branch of the encoder, read back. *)
Lemma decode_encode_list {A} (as_int : A -> option Z)
    (enc : A -> result bytes) (cval val : A -> term) (l : list A)
    (b rest : bytes) :
  (forall x z, as_int x = Some z -> cval x = Int z) ->
  Forall (fun x => forall b rest, enc x = Ok b ->
            decodes_to (b ++ rest) (val x, rest)) l ->
  encode_list as_int enc l = Ok b ->
  decodes_to (b ++ rest)
    (List (if compact as_int l then map cval l else map val l), rest).
Proof.
  intros Hc Hall. unfold encode_list, compact.
  destruct l as [|x l'].
  { intros H. injection H as <-. apply decodes_any_fuel. intros f. reflexivity. }
  set (l := x :: l') in *.
  assert (Hgen :
    (body <- join_map enc l ;;
     Ok ("l"%byte :: pack_be 4 (len l) ++ body ++ ["j"%byte])) = Ok b ->
    len l <= 4294967295 ->
    decodes_to (b ++ rest) (List (map val l), rest)).
  { intros H Hlen. destruct (join_map enc l) as [body| |] eqn:Ej;
      cbn [bind] in H; try discriminate.
    assert (Hb : "l"%byte :: pack_be 4 (len l) ++ body ++ ["j"%byte] = b)
      by congruence.
    subst b.
    destruct (decode_children enc val Hall ("j"%byte :: rest) [] Ej) as [f Hf].
    exists (S f). intros [|f'] Hle; [lia|].
    pose proof (len_nonneg l).
    cbn [app]. rewrite <- !app_assoc. cbn [app].
    rewrite decode_list_header by lia.
    rewrite Hf by lia. cbn [bind app]. eval_tags. cbn [negb].
    reflexivity. }
  destruct (Z.leb_spec (len l) 65535) as [Hle|Hgt].
  - destruct (array_B as_int l) as [bb|] eqn:Eb.
    + intros H. assert (Hb : "k"%byte :: pack_be 2 (len l) ++ bb = b)
        by congruence.
      subst b. destruct (array_B_map as_int cval _ Hc Eb) as [Hm Hl].
      apply decodes_any_fuel. intros f. cbn [app]. rewrite <- app_assoc.
      rewrite <- Hl, decode_string_ext by lia. cbn [andb]. now rewrite Hm.
    + intros H. cbn [andb]. apply Hgen; [exact H|lia].
  - cbn [andb]. destruct (Z.gtb_spec (len l) 4294967295) as [Hbig|Hok];
      [discriminate|].
    intros Hb. apply Hgen; [exact Hb|lia].
Qed.
End Lists.

Section FirstTag.
Context {host : Host}.

Lemma encode_first_tag (t : term) (b : bytes) :
  wire_safe t = true -> encode_term t = Ok b ->
  exists c b', b = c :: b' /\ c <> "P"%byte /\
    (is_list (canon t) = false -> c <> "j"%byte).
Proof.
  intros Hws H.
  assert (Hsolve : forall c b', b = c :: b' ->
            Byte.eqb c "P" = false ->
            (is_list (canon t) = false -> Byte.eqb c "j" = false) ->
            exists c b', b = c :: b' /\ c <> "P"%byte /\
              (is_list (canon t) = false -> c <> "j"%byte)).
  { intros c b' -> HP Hj. exists c, b'. split; [reflexivity|]. split.
    - intros ->. discriminate.
    - intros Hl ->. specialize (Hj Hl). discriminate. }
  destruct t; cbn [encode_term] in H;
    unfold encode_int, encode_atom, encode_str, encode_list,
      OpaqueObject_encode in H; cbv zeta in H.
  all: try discriminate Hws.
  all: try match type of Hws with
    | wire_safe (Opaque _ _) = true =>
        cbn [wire_safe] in Hws; unfold opaque_safe in Hws;
        repeat (apply andb_true_iff in Hws as [Hws ?]);
        match goal with
        | E : negb (bytes_eqb _ (bs "erlang")) = true |- _ =>
            apply negb_true_iff in E; rewrite E in H
        end
    end.
  all: repeat step H.
  all: try match goal with
    | E : (if _ then _ else _) = Ok _ |- _ => repeat step E; injection E as <-
    end.
  all: injection H as Hb; cbn [app] in Hb; symmetry in Hb;
    eapply (Hsolve _ _ Hb);
    [ reflexivity
    | first [ intros _; reflexivity
            | intros Hl; exfalso; cbn [canon] in Hl;
              repeat match type of Hl with
                | context [if ?c then _ else _] => destruct c
                end; discriminate Hl ] ].
Qed.
End FirstTag.

Section ReadBack.
Context {host : Host}.

Lemma forallb_Forall_impl (P : term -> Prop) (p : term -> bool) (Q : term -> Prop)
    (l : list term) :
  Forall P l -> forallb p l = true ->
  (forall x, P x -> p x = true -> Q x) -> Forall Q l.
Proof.
  intros HP Hp HQ. rewrite Forall_forall in *. rewrite forallb_forall in Hp.
  intros x Hx. apply HQ; auto.
Qed.

Lemma len_map {A B} (f : A -> B) (l : list A) : len (map f l) = len l.
Proof. unfold len. now rewrite length_map. Qed.

(** Decoding the encoding of a [wire_safe] term, followed by anything,
    yields its canonical form and leaves what followed. *)
Lemma decode_encode_term (t : term) :
  wire_safe t = true ->
  forall b rest, encode_term t = Ok b -> decodes_to (b ++ rest) (canon t, rest).
Proof.
  induction t using term_nested_ind; intros Hws e rest Henc;
    cbn [encode_term canon wire_safe] in *.
  - (* Int *)
    apply decodes_any_fuel. intros f. now apply decode_encode_int.
  - (* Bool *)
    apply decodes_any_fuel. intros f. destruct b; ok_subst Henc.
    + exact (decode_atom_ext f rest (bs "true") ltac:(vm_compute; discriminate)).
    + exact (decode_atom_ext f rest (bs "false") ltac:(vm_compute; discriminate)).
  - (* None *)
    apply decodes_any_fuel. intros f. ok_subst Henc.
    exact (decode_atom_ext f rest (bs "undefined") ltac:(vm_compute; discriminate)).
  - (* Float *)
    apply andb_true_iff in Hws as [H1 H2].
    apply Z.leb_le in H1. apply Z.ltb_lt in H2.
    apply decodes_any_fuel. intros f. ok_subst Henc.
    cbn [app]. apply decode_float_ext. lia.
  - (* Atom *)
    apply Z.leb_le in Hws. unfold encode_atom in Henc.
    destruct (Z.gtb_spec (len s) 65535); [lia|]. ok_subst Henc.
    apply decodes_any_fuel. intros f. cbn [app]. rewrite <- app_assoc.
    rewrite decode_atom_ext by lia.
    destruct (bytes_eqb s (bs "true")); [reflexivity|].
    destruct (bytes_eqb s (bs "false")); [reflexivity|].
    destruct (bytes_eqb s (bs "undefined")); [reflexivity|].
    unfold Atom. destruct (Z.gtb_spec (len s) 255); [lia|]. reflexivity.
  - (* str *)
    unfold encode_str in Henc.
    destruct (Z.gtb_spec (len s) 4294967295); [discriminate|]. ok_subst Henc.
    apply decodes_any_fuel. intros f. cbn [app]. rewrite <- app_assoc.
    apply decode_binary_ext. lia.
  - (* unicode *)
    assert (Hall : Forall (fun x => forall b rest, encode_int x = Ok b ->
                     decodes_to (b ++ rest) (Int x, rest)) cps).
    { apply Forall_forall. intros x _ b' rest' Hx.
      apply decodes_any_fuel. intros f. now apply decode_encode_int. }
    pose proof (@decode_encode_list _ _ (@Some Z) encode_int Int Int cps e rest
                  ltac:(intros x z [= ->]; reflexivity) Hall Henc) as Hd.
    destruct (compact (@Some Z) cps); exact Hd.
  - (* list *)
    assert (Hall : Forall (fun x => forall b rest, encode_term x = Ok b ->
                     decodes_to (b ++ rest) (canon x, rest)) l).
    { eapply forallb_Forall_impl; [exact H|exact Hws|].
      intros x Hx Hs. now apply Hx. }
    pose proof (@decode_encode_list _ _ int_long encode_term compact_value
                  canon l e rest
                  ltac:(intros x z Hx; unfold compact_value; now rewrite Hx)
                  Hall Henc) as Hd.
    destruct (compact int_long l); exact Hd.
  - (* improper list *)
    apply andb_true_iff in Hws as [Hws Htl]. apply negb_true_iff in Htl.
    apply andb_true_iff in Hws as [Hws Hwt].
    apply andb_true_iff in Hws as [Hne Hwl].
    apply negb_true_iff, Z.eqb_neq in Hne.
    destruct (Z.gtb_spec (len l) 4294967295) as [|Hlen]; [discriminate|].
    destruct (join_map encode_term l) as [body| |] eqn:Ej; cbn [bind] in Henc;
      try discriminate.
    destruct (encode_term t) as [tb| |] eqn:Et; cbn [bind] in Henc;
      try discriminate.
    ok_subst Henc.
    assert (Hall : Forall (fun x => forall b rest, encode_term x = Ok b ->
                     decodes_to (b ++ rest) (canon x, rest)) l).
    { eapply forallb_Forall_impl; [exact H|exact Hwl|].
      intros x Hx Hs. now apply Hx. }
    destruct (decode_children encode_term canon Hall (tb ++ rest) [] Ej)
      as [f1 H1].
    destruct (IHt Hwt tb rest eq_refl) as [f2 H2].
    destruct (encode_first_tag t Hwt Et) as (c & tb' & -> & _ & Hj).
    specialize (Hj Htl).
    exists (S (Nat.max f1 f2)). intros [|f'] Hf; [lia|].
    pose proof (len_nonneg l).
    cbn [app]. rewrite <- !app_assoc.
    rewrite decode_list_header by lia.
    rewrite H1 by lia. cbn [bind app].
    destruct (Byte.eqb c "j") eqn:Ec;
      [apply Byte.byte_dec_bl in Ec; contradiction|].
    cbn [negb]. change (c :: tb' ++ rest) with ((c :: tb') ++ rest).
    rewrite H2 by lia. cbn [bind]. unfold ImproperList_init.
    destruct l as [|x l']; [cbn in Hne; lia|]. cbn [map].
    rewrite Htl. reflexivity.
  - (* tuple *)
    apply andb_true_iff in Hws as [Hwl Hop]. apply negb_true_iff in Hop.
    destruct (join_map encode_term l) as [body| |] eqn:Ej.
    2,3: destruct (len l <=? 255); [|destruct (len l <=? 4294967295)];
      cbn [bind] in Henc; discriminate.
    assert (Hall : Forall (fun x => forall b rest, encode_term x = Ok b ->
                     decodes_to (b ++ rest) (canon x, rest)) l).
    { eapply forallb_Forall_impl; [exact H|exact Hwl|].
      intros x Hx Hs. now apply Hx. }
    destruct (decode_children encode_term canon Hall rest [] Ej) as [f1 H1].
    assert (Hhdr : exists large : bool, 0 <= len l <= (if large then 4294967295 else 255)
                     /\ e = tuple_header large (len l) ++ body).
    { pose proof (len_nonneg l).
      destruct (Z.leb_spec (len l) 255); cbn [bind] in Henc.
      - exists false. split; [lia|]. unfold tuple_header. congruence.
      - destruct (Z.leb_spec (len l) 4294967295); cbn [bind] in Henc;
          [|discriminate].
        exists true. split; [lia|]. unfold tuple_header. congruence. }
    destruct Hhdr as (large & Hlen & ->).
    exists (S f1). intros [|f'] Hf; [lia|].
    rewrite <- app_assoc, decode_tuple_header by exact Hlen.
    rewrite H1 by lia. cbn [bind app].
    rewrite len_map. change NoneV with (canon NoneV) at 1.
    rewrite map_nth, Hop. reflexivity.
  - (* opaque object *)
    unfold opaque_safe in Hws.
    apply andb_true_iff in Hws as [Hws Hd].
    apply andb_true_iff in Hws as [Hws Hpy]. apply negb_true_iff in Hpy.
    apply andb_true_iff in Hws as [Hws Herl]. apply negb_true_iff in Herl.
    apply andb_true_iff in Hws as [Hlen Hlit]. apply negb_true_iff in Hlit.
    apply Z.leb_le in Hlen.
    unfold OpaqueObject_encode in Henc. rewrite Herl in Henc.
    change (encode_atom marker) with (Ok (atom_ext marker)) in Henc.
    unfold encode_atom at 1 in Henc.
    destruct (Z.gtb_spec (len l) 65535); [lia|]. cbn [bind] in Henc.
    assert (Hdata : match d with
                    | PStr s => len s <= 4294967295
                    | PAtom s => len s <= 255 /\ literal_name s = false
                    end /\ e = tuple_header false 3 ++ atom_ext marker ++
                                 atom_ext l ++ pystr_ext d).
    { destruct d as [s|s].
      - unfold encode_str in Henc.
        destruct (Z.gtb_spec (len s) 4294967295); [discriminate|].
        cbn [bind] in Henc. split; [lia|].
        injection Henc as <-. reflexivity.
      - apply andb_true_iff in Hd as [Hd1 Hd2].
        apply Z.leb_le in Hd1. apply negb_true_iff in Hd2.
        unfold encode_atom in Henc.
        destruct (Z.gtb_spec (len s) 65535); [lia|].
        cbn [bind] in Henc. split; [now split|].
        injection Henc as <-. reflexivity. }
    destruct Hdata as [Hdata ->].
    apply (decodes_fuel 5). rewrite <- !app_assoc.
    rewrite (decode_opaque_tuple false d l rest 0 Hlen Hlit Hdata).
    unfold decode_opaque. cbn [str_eq]. rewrite Hpy.
    destruct d; reflexivity.
  - (* native object *)
    discriminate.
Qed.
End ReadBack.

Section CanonicalTerms.
Context {host : Host}.

Lemma compact_value_id (l : list term) :
  array_B int_long l <> None -> existsb is_bool l = false ->
  map compact_value l = l.
Proof.
  induction l as [|x l IH]; [reflexivity|].
  cbn [array_B existsb map]. intros Ha Hb.
  apply orb_false_iff in Hb as [Hx Hl].
  destruct (int_long x) as [z|] eqn:Ex; [|contradiction].
  destruct ((0 <=? z) && (z <=? 255)); [|contradiction].
  destruct (array_B int_long l) as [b|] eqn:Eb; [|contradiction].
  rewrite IH by (discriminate || assumption).
  destruct x; try discriminate; reflexivity.
Qed.

Lemma canonical_wire_safe (t : term) :
  canonical t = true -> wire_safe t = true /\ canon t = t.
Proof.
  induction t using term_nested_ind; cbn [canonical wire_safe canon];
    intros Hc; try (split; [assumption || reflexivity | reflexivity]);
    try discriminate.
  - (* Atom *)
    apply andb_true_iff in Hc as [Hl Hlit]. split; [exact Hl|].
    apply negb_true_iff in Hlit. unfold literal_name in Hlit.
    apply orb_false_iff in Hlit as [Hlit Hu].
    apply orb_false_iff in Hlit as [Ht Hf].
    now rewrite Ht, Hf, Hu.
  - (* list *)
    apply andb_true_iff in Hc as [Hall Hcompact].
    assert (Hl : forallb wire_safe l = true /\ map canon l = l).
    { clear Hcompact. induction H as [|x l Hx _ IH]; [split; reflexivity|].
      cbn [forallb map] in *. apply andb_true_iff in Hall as [H1 H2].
      destruct (Hx H1) as [-> ->]. destruct (IH H2) as [-> ->]. now split. }
    destruct Hl as [Hw Hm]. split; [exact Hw|].
    apply negb_true_iff in Hcompact.
    destruct (compact int_long l) eqn:Ec; [|now rewrite Hm].
    cbn [andb] in Hcompact. unfold compact in Ec.
    apply andb_true_iff in Ec as [_ Ec].
    rewrite compact_value_id; [reflexivity| |exact Hcompact].
    destruct (array_B int_long l); [discriminate|discriminate Ec].
  - (* improper list *)
    apply andb_true_iff in Hc as [Hc Htl].
    apply andb_true_iff in Hc as [Hc Hct].
    apply andb_true_iff in Hc as [Hne Hall].
    assert (Hl : forallb wire_safe l = true /\ map canon l = l).
    { clear Hne. induction H as [|x l Hx _ IH]; [split; reflexivity|].
      cbn [forallb map] in *. apply andb_true_iff in Hall as [H1 H2].
      destruct (Hx H1) as [-> ->]. destruct (IH H2) as [-> ->]. now split. }
    destruct Hl as [Hw Hm]. destruct (IHt Hct) as [Hwt Hmt].
    rewrite Hm, Hmt, Hw, Hwt, Hne, Htl. now split.
  - (* tuple *)
    apply andb_true_iff in Hc as [Hall Hop].
    assert (Hl : forallb wire_safe l = true /\ map canon l = l).
    { clear Hop. induction H as [|x l Hx _ IH]; [split; reflexivity|].
      cbn [forallb map] in *. apply andb_true_iff in Hall as [H1 H2].
      destruct (Hx H1) as [-> ->]. destruct (IH H2) as [-> ->]. now split. }
    destruct Hl as [Hw Hm]. rewrite Hw, Hm. split; [|reflexivity].
    cbn [andb].
    replace (canon (nth 0 l NoneV)) with (nth 0 l NoneV); [exact Hop|].
    rewrite <- (map_nth canon l NoneV 0). cbn [canon]. now rewrite Hm.
Qed.

Lemma decode_uncompressed (c : byte) (b : bytes) :
  c <> "P"%byte -> decode (x83 :: c :: b) = decode_term (c :: b).
Proof.
  intros Hc. unfold decode.
  replace (bytes_eqb (slice 1 2 (x83 :: c :: b)) (bs "P")) with false;
    [reflexivity|].
  symmetry. apply bytes_eqb_neq. change (slice 1 2 (x83 :: c :: b)) with [c].
  intros E. injection E as ->. now apply Hc.
Qed.

Lemma array_B_compact (l : list term) :
  Forall bool_or_byte l -> array_B int_long l = Some (map compact_byte l).
Proof.
  induction 1 as [|t l Ht _ IH]; [reflexivity|].
  cbn [array_B map]. rewrite IH.
  destruct Ht as [[b ->]|(z & -> & Hz)].
  - destruct b; reflexivity.
  - cbn [int_long compact_byte].
    replace ((0 <=? z) && (z <=? 255)) with true; [reflexivity|].
    symmetry. apply andb_true_iff. split; apply Z.leb_le; lia.
Qed.
End CanonicalTerms.

(** ** The decoder on a buffer cut short *)

Section Prefix.
Context {host : Host}.

Lemma len_drop (k : Z) (s : bytes) :
  0 <= k -> len (drop k s) = Z.max 0 (len s - k).
Proof.
  intros Hk. unfold len, drop. rewrite length_skipn. lia.
Qed.

Lemma drop_app_l (k : Z) (s q : bytes) :
  k <= len s -> drop k (s ++ q) = drop k s ++ q.
Proof.
  intros Hk. unfold drop, len in *. rewrite skipn_app.
  replace (Z.to_nat k - List.length s)%nat with 0%nat by lia. reflexivity.
Qed.

Lemma slice_app_l (i j : Z) (s q : bytes) :
  0 <= i -> j <= len s -> slice i j (s ++ q) = slice i j s.
Proof.
  intros Hi Hj. unfold slice, len in *. rewrite skipn_app, firstn_app.
  rewrite length_skipn.
  destruct (Z_le_gt_dec i (Z.of_nat (List.length s))) as [Hle|Hgt].
  - replace (Z.to_nat (j - i) - (List.length s - Z.to_nat i))%nat with 0%nat
      by lia.
    cbn [firstn]. apply app_nil_r.
  - replace (Z.to_nat (j - i)) with 0%nat by lia. reflexivity.
Qed.

Lemma nth_app_l (i : nat) (s q : bytes) (d : byte) :
  Z.of_nat i < len s -> nth i (s ++ q) d = nth i s d.
Proof.
  intros Hi. apply app_nth1. unfold len in Hi. lia.
Qed.

Lemma suffix_len (r s : bytes) : suffix r s -> len r <= len s.
Proof. intros H. apply suffix_length in H. unfold len. lia. Qed.

Lemma proper_suffix_len (r s : bytes) : proper_suffix r s -> len r < len s.
Proof. intros H. apply proper_suffix_length in H. unfold len. lia. Qed.

Lemma unpack_be_nonneg (s : bytes) : 0 <= unpack_be s.
Proof. apply le_value_nonneg. Qed.

(** Bring the reads of [H] from the whole buffer to its cut, where the
    cut is long enough. *)
Ltac norm_reads H :=
  repeat first
    [ rewrite slice_app_l in H by lia
    | rewrite drop_app_l in H by lia
    | rewrite nth_app_l in H by lia ].

Ltac pose_unpack :=
  repeat match goal with
  | |- context [ord ?x] =>
      lazymatch goal with
      | _ : 0 <= ord x <= 255 |- _ => fail
      | _ => pose proof (ord_range x)
      end
  | _ : context [ord ?x] |- _ =>
      lazymatch goal with
      | _ : 0 <= ord x <= 255 |- _ => fail
      | _ => pose proof (ord_range x)
      end
  | |- context [unpack_be ?x] =>
      lazymatch goal with
      | _ : 0 <= unpack_be x |- _ => fail
      | _ => pose proof (unpack_be_nonneg x)
      end
  | _ : context [unpack_be ?x] |- _ =>
      lazymatch goal with
      | _ : 0 <= unpack_be x |- _ => fail
      | _ => pose proof (unpack_be_nonneg x)
      end
  end.

(** Close a leaf case once [H] has been normalised. *)
Ltac close_leaf H :=
  repeat step H; injection H as <- <-;
  pose_unpack;
  repeat match goal with
  | E : (_ <? _) = false |- _ => apply Z.ltb_ge in E; rewrite ?len_app in E
  | E : (_ <? _) = true |- _ => apply Z.ltb_lt in E; rewrite ?len_app in E
  end;
  rewrite ?len_app; rewrite ?len_drop by lia; rewrite ?len_app;
  repeat match goal with
  | E : bytes_eqb _ _ = _ |- _ => rewrite E
  | E : Atom _ = _ |- _ => rewrite E
  end;
  decide_tests; cbn [bind];
  first [ reflexivity | eexists; split; reflexivity ].

Ltac leaf_cases S H :=
  norm_reads H;
  repeat match goal with
  | |- context [Z.ltb (len ?X) ?k] =>
      destruct (Z.ltb_spec (len X) k);
      [ solve [close_leaf H] | norm_reads H; cbn [bind] ]
  end;
  close_leaf H.

(** Run the header read of [H], which succeeded. *)
Ltac reduce_header H :=
  match type of H with
  | bind (if ?c then _ else _) _ = _ =>
      destruct c eqn:?; cbn [bind] in H; [discriminate H|]
  end.

(** What follows the loop in the list and tuple branch returns a suffix
    of what the loop left, a proper one in the list branch. *)
Lemma after_children_len (f : nat) (is_l : bool) (lst : list term)
    (r1 : bytes) (t : term) (r : bytes) :
  (if is_l then
     match r1 with
     | [] => Raise IncompleteData
     | c :: _ =>
         if negb (Byte.eqb c "j") then
           '(improper_tail, tail) <- decode_term_fuel f r1 ;;
           il <- ImproperList_init lst improper_tail ;;
           Ok (il, tail)
         else Ok (List lst, drop 1 r1)
     end
   else if (len lst =? 3) && str_eq (nth 0 lst NoneV) marker then
     o <- decode_opaque (nth 2 lst NoneV) (nth 1 lst NoneV) ;;
     Ok (o, r1)
   else Ok (Tuple lst, r1)) = Ok (t, r) ->
  len r <= len r1 /\ (is_l = true -> len r < len r1).
Proof.
  intros H. destruct is_l.
  - destruct r1 as [|c r1']; [discriminate|].
    destruct (negb (Byte.eqb c "j")).
    + destruct (decode_term_fuel f (c :: r1')) as [[it tail]| |] eqn:E;
        cbn [bind] in H; try discriminate.
      apply (proj1 (decode_consumes f)), proper_suffix_len in E.
      destruct (ImproperList_init lst it); cbn [bind] in H; try discriminate.
      injection H as <- <-. lia.
    + injection H as <- <-. rewrite len_drop, len_cons by lia.
      pose proof (len_nonneg r1'). lia.
  - split; [|discriminate].
    destruct ((len lst =? 3) && str_eq (nth 0 lst NoneV) marker).
    + destruct (decode_opaque (nth 2 lst NoneV) (nth 1 lst NoneV));
        cbn [bind] in H; try discriminate.
      injection H as <- <-. lia.
    + injection H as <- <-. lia.
Qed.

Lemma decode_prefix (f : nat) :
  (forall s q t r, decode_term_fuel f (s ++ q) = Ok (t, r) ->
     if len q <=? len r
     then exists r0, r = r0 ++ q /\ decode_term_fuel f s = Ok (t, r0)
     else decode_term_fuel f s = Raise IncompleteData) /\
  (forall n s q acc lst r, decode_while f n (s ++ q) acc = Ok (lst, r) ->
     if len q <=? len r
     then exists r0, r = r0 ++ q /\ decode_while f n s acc = Ok (lst, r0)
     else decode_while f n s acc = Raise IncompleteData).
Proof.
  induction f as [|f [IHt IHw]]; split.
  - discriminate.
  - intros n s q acc lst r H. cbn [decode_while] in *.
    destruct (n >? 0); [discriminate|]. injection H as <- <-.
    rewrite len_app. pose proof (len_nonneg s).
    destruct (Z.leb_spec (len q) (len s + len q)); [|lia].
    exists s. split; reflexivity.
  - intros s q t r H.
    destruct s as [|tag s'].
    { apply (proj1 (decode_consumes _)) in H. apply proper_suffix_len in H.
      cbn [app] in H. destruct (Z.leb_spec (len q) (len r)); [lia|reflexivity]. }
    pose proof (len_nonneg q) as Hq. pose proof (len_nonneg s') as Hs'.
    change ((tag :: s') ++ q) with (tag :: s' ++ q) in H.
    cbn [decode_term_fuel] in H |- *.
    change (tag :: s' ++ q) with ((tag :: s') ++ q) in H.
    set (S := tag :: s') in *.
    assert (HS : len S = 1 + len s') by apply len_cons.
    clearbody S.
    unfold int2_unpack, int4_unpack, signed_int4_unpack in *.
    revert H. destruct (Byte.eqb tag "d"); intros H.
    { leaf_cases S H. }
    revert H. destruct (Byte.eqb tag "j"); intros H.
    { leaf_cases S H. }
    revert H. destruct (Byte.eqb tag "k"); intros H.
    { leaf_cases S H. }
    revert H. destruct (tag_in tag (bs "lhi")); intros H.
    { assert (Hcomposite : forall k length,
                (k = 2 \/ k = 5) -> k <= len S + len q ->
                (x0 <- decode_while f length (drop k (S ++ q)) [] ;;
                 (let (lst, tail0) := x0 in
                  if Byte.eqb tag "l" then
                    match tail0 with
                    | [] => Raise IncompleteData
                    | c :: _ =>
                        if negb (Byte.eqb c "j") then
                          '(improper_tail, tail) <- decode_term_fuel f tail0 ;;
                          il <- ImproperList_init lst improper_tail ;;
                          Ok (il, tail)
                        else Ok (List lst, drop 1 tail0)
                    end
                  else if (len lst =? 3) && str_eq (nth 0 lst NoneV) marker then
                    o <- decode_opaque (nth 2 lst NoneV) (nth 1 lst NoneV) ;;
                    Ok (o, tail0)
                  else Ok (Tuple lst, tail0))) = Ok (t, r) ->
                (len S < k -> (len q <=? len r) = false) /\
                (k <= len S ->
                 if len q <=? len r
                 then exists r0, r = r0 ++ q /\
                   (x0 <- decode_while f length (drop k S) [] ;;
                    (let (lst, tail0) := x0 in
                     if Byte.eqb tag "l" then
                       match tail0 with
                       | [] => Raise IncompleteData
                       | c :: _ =>
                           if negb (Byte.eqb c "j") then
                             '(improper_tail, tail) <- decode_term_fuel f tail0 ;;
                             il <- ImproperList_init lst improper_tail ;;
                             Ok (il, tail)
                           else Ok (List lst, drop 1 tail0)
                       end
                     else if (len lst =? 3) && str_eq (nth 0 lst NoneV) marker then
                       o <- decode_opaque (nth 2 lst NoneV) (nth 1 lst NoneV) ;;
                       Ok (o, tail0)
                     else Ok (Tuple lst, tail0))) = Ok (t, r0)
                 else
                   (x0 <- decode_while f length (drop k S) [] ;;
                    (let (lst, tail0) := x0 in
                     if Byte.eqb tag "l" then
                       match tail0 with
                       | [] => Raise IncompleteData
                       | c :: _ =>
                           if negb (Byte.eqb c "j") then
                             '(improper_tail, tail) <- decode_term_fuel f tail0 ;;
                             il <- ImproperList_init lst improper_tail ;;
                             Ok (il, tail)
                           else Ok (List lst, drop 1 tail0)
                       end
                     else if (len lst =? 3) && str_eq (nth 0 lst NoneV) marker then
                       o <- decode_opaque (nth 2 lst NoneV) (nth 1 lst NoneV) ;;
                       Ok (o, tail0)
                     else Ok (Tuple lst, tail0))) = Raise IncompleteData)).
      { intros k length Hk Hkq Hrun.
        destruct (decode_while f length (drop k (S ++ q)) []) as [[lst r1]| |]
          eqn:Ew; cbn [bind] in Hrun; try discriminate.
        pose proof (after_children_len _ _ _ _ Hrun) as [Hlen Hstrict].
        split.
        - intros Hshort.
          apply (proj2 (decode_consumes f)), suffix_len in Ew.
          rewrite len_drop, len_app in Ew by lia.
          apply Z.leb_gt. lia.
        - intros Hlong. rewrite drop_app_l in Ew by lia.
          apply IHw in Ew.
          destruct (Z.leb_spec (len q) (len r1)) as [Hin|Hout].
          + destruct Ew as (r10 & -> & Ew). rewrite Ew. cbn [bind].
            destruct (Byte.eqb tag "l").
            * destruct r10 as [|c r10'].
              { cbn [app] in *. specialize (Hstrict eq_refl).
                destruct (Z.leb_spec (len q) (len r)); [lia|reflexivity]. }
              cbn [app] in Hrun.
              destruct (negb (Byte.eqb c "j")).
              -- change (c :: r10' ++ q) with ((c :: r10') ++ q) in Hrun.
                 destruct (decode_term_fuel f ((c :: r10') ++ q))
                   as [[it r2]| |] eqn:Et; cbn [bind] in Hrun;
                   try discriminate.
                 apply IHt in Et.
                 destruct (ImproperList_init lst it) as [il| |] eqn:Ei;
                   cbn [bind] in Hrun; try discriminate.
                 injection Hrun as <- <-.
                 destruct (Z.leb_spec (len q) (len r2)).
                 ++ destruct Et as (r20 & -> & Et). exists r20.
                    split; [reflexivity|]. rewrite Et. cbn [bind].
                    rewrite Ei. reflexivity.
                 ++ rewrite Et. reflexivity.
              -- injection Hrun as <- <-.
                 change (drop 1 (c :: r10' ++ q)) with (r10' ++ q).
                 rewrite len_app. pose proof (len_nonneg r10').
                 destruct (Z.leb_spec (len q) (len r10' + len q)); [|lia].
                 exists r10'. split; reflexivity.
            * destruct ((len lst =? 3) && str_eq (nth 0 lst NoneV) marker).
              -- destruct (decode_opaque (nth 2 lst NoneV) (nth 1 lst NoneV));
                   cbn [bind] in Hrun |- *; try discriminate.
                 injection Hrun as <- <-.
                 rewrite len_app. pose proof (len_nonneg r10).
                 destruct (Z.leb_spec (len q) (len r10 + len q)); [|lia].
                 exists r10. split; reflexivity.
              -- injection Hrun as <- <-.
                 rewrite len_app. pose proof (len_nonneg r10).
                 destruct (Z.leb_spec (len q) (len r10 + len q)); [|lia].
                 exists r10. split; reflexivity.
          + rewrite Ew. cbn [bind].
            destruct (Z.leb_spec (len q) (len r)); [lia|reflexivity]. }
      revert H. destruct (Byte.eqb tag "h"); intros H; reduce_header H;
        match goal with
        | E : (len (S ++ q) <? _) = false |- _ =>
            apply Z.ltb_ge in E; rewrite len_app in E
        end.
      - destruct (Hcomposite 2 _ (or_introl eq_refl) ltac:(assumption) H)
          as [Hshort Hlong].
        destruct (Z.ltb_spec (len S) 2) as [Hs|Hs].
        + rewrite (Hshort Hs). reflexivity.
        + cbn [bind]. specialize (Hlong Hs).
          rewrite nth_app_l in Hlong by lia. exact Hlong.
      - destruct (Hcomposite 5 _ (or_intror eq_refl) ltac:(assumption) H)
          as [Hshort Hlong].
        destruct (Z.ltb_spec (len S) 5) as [Hs|Hs].
        + rewrite (Hshort Hs). reflexivity.
        + cbn [bind]. specialize (Hlong Hs).
          rewrite slice_app_l in Hlong by lia. exact Hlong. }
    revert H. destruct (Byte.eqb tag "a"); intros H.
    { leaf_cases S H. }
    revert H. destruct (Byte.eqb tag "b"); intros H.
    { leaf_cases S H. }
    revert H. destruct (Byte.eqb tag "m"); intros H.
    { leaf_cases S H. }
    revert H. destruct (Byte.eqb tag "F"); intros H.
    { leaf_cases S H. }
    revert H. destruct (tag_in tag (bs "no")); intros H; [|discriminate].
    revert H. destruct (Byte.eqb tag "n"); intros H; reduce_header H.
    { leaf_cases S H. }
    { leaf_cases S H. }
  - intros n s q acc lst r H. cbn [decode_while] in *.
    destruct (n >? 0).
    + destruct (decode_term_fuel f (s ++ q)) as [[t r1]| |] eqn:Et;
        cbn [bind] in H; try discriminate.
      apply IHt in Et.
      destruct (Z.leb_spec (len q) (len r1)) as [Hin|Hout].
      * destruct Et as (r10 & -> & Et). rewrite Et. cbn [bind].
        now apply IHw.
      * rewrite Et. cbn [bind].
        apply (proj2 (decode_consumes f)), suffix_len in H.
        destruct (Z.leb_spec (len q) (len r)); [lia|reflexivity].
    + injection H as <- <-. rewrite len_app. pose proof (len_nonneg s).
      destruct (Z.leb_spec (len q) (len s + len q)); [|lia].
      exists s. split; reflexivity.
Qed.
End Prefix.

Section Cut.
Context {host : Host}.

Lemma decode_term_cut (t : term) (b p : bytes) :
  wire_safe t = true -> encode_term t = Ok b -> strict_prefix p b ->
  decode_term p = Raise IncompleteData.
Proof.
  intros Hw Eb (q & Hq & ->).
  destruct (decode_encode_term t Hw [] Eb) as [f Hf].
  specialize (Hf f (Nat.le_refl f)). rewrite app_nil_r in Hf.
  apply (proj1 (decode_prefix f)) in Hf.
  assert (Hlen : 0 < len q).
  { destruct q; [contradiction|]. rewrite len_cons.
    pose proof (len_nonneg q). lia. }
  change (len (@nil byte)) with 0 in Hf.
  destruct (Z.leb_spec (len q) 0); [lia|].
  apply (fuel_agree f); [exact Hf|discriminate].
Qed.

Lemma decode_short_envelope (w p q : bytes) :
  x83 :: "P"%byte :: w = p ++ q -> len p < 6 ->
  decode p = Raise IncompleteData.
Proof.
  intros He Hlen. destruct p as [|a [|b p']]; [reflexivity| |].
  - injection He as <- _. reflexivity.
  - injection He as <- <- _. unfold decode. cbn [negb].
    change (Byte.eqb x83 x83) with true. cbn [negb].
    change (bytes_eqb (slice 1 2 (x83 :: "P"%byte :: p')) (bs "P")) with true.
    cbv iota. destruct (Z.ltb_spec (len (x83 :: "P"%byte :: p')) 6); [reflexivity|lia].
Qed.
End Cut.

(** * The claims of the specification *)

Section Claims.
Context {host : Host}.

(** C1, amended.  For every canonical term (no text, no atom named
    [true], [false] or [undefined], no boolean in a compact list, no
    tuple shaped like an opaque object, no [erlang] or [python] opaque
    object and no unmapped native value) that [encode] accepts, decoding
    its uncompressed encoding returns the term itself and an empty
    remainder. *)
Theorem round_trip_canonical (t : term) (e : bytes) :
  canonical t = true ->
  encode t (CFlag false) = Ok e ->
  decode e = Ok (t, []).
Proof.
  intros Hc He. destruct (canonical_wire_safe t Hc) as [Hw Hcanon].
  unfold encode in He. destruct (encode_term t) as [b| |] eqn:Eb;
    cbn [bind compression_level] in He; try discriminate.
  injection He as <-.
  destruct (encode_first_tag t Hw Eb) as (c & b' & -> & HP & _).
  pose proof (decode_encode_term t Hw [] Eb) as Hd.
  apply decodes_decode_term in Hd. rewrite app_nil_r, Hcanon in Hd.
  rewrite decode_uncompressed by exact HP. exact Hd.
Qed.

(** C2, amended.  For a [wire_safe] term and any compression setting,
    cutting the output of [encode] short makes [decode] raise
    [IncompleteData] whenever the output is the plain form, and, when it is
    the compressed envelope, whenever fewer than 6 bytes are left. *)
Theorem truncation_safety (t : term) (compressed : compression) (e p : bytes) :
  wire_safe t = true ->
  encode t compressed = Ok e ->
  strict_prefix p e ->
  is_compressed e = false \/ len p < 6 ->
  decode p = Raise IncompleteData.
Proof.
  intros Hw He Hp Hcase. unfold encode in He.
  destruct (encode_term t) as [b| |] eqn:Eb; cbn [bind] in He; try discriminate.
  destruct (encode_first_tag t Hw Eb) as (c & b' & Hb & HP & _).
  assert (Hplain : e = x83 :: b -> decode p = Raise IncompleteData).
  { intros ->. destruct Hp as (q & Hq & Hpq).
    destruct p as [|a p']; [reflexivity|].
    injection Hpq as <- Hpq.
    destruct p' as [|c' p'']; [reflexivity|].
    assert (c' = c) by (rewrite Hb in Hpq; now injection Hpq). subst c'.
    rewrite decode_uncompressed by exact HP.
    apply (decode_term_cut t Hw Eb). now exists q. }
  destruct (compression_level compressed) as [level|];
    [|apply Hplain; congruence].
  destruct (compress b level) as [err|z]; cbn [call bind] in He;
    [discriminate|].
  destruct (len z + 5 <=? len b); [|apply Hplain; congruence].
  destruct (int4_pack (len b)) as [size| |]; cbn [bind] in He; try discriminate.
  injection He as <-. destruct Hp as (q & _ & Hpq).
  destruct Hcase as [Hc|Hshort]; [discriminate Hc|].
  eapply decode_short_envelope; [exact Hpq|exact Hshort].
Qed.

(** C4.  Whatever compression is asked for (level 6 included), the output
    of [encode] is never longer than the output without compression. *)
Theorem compression_never_inflates (t : term) (compressed : compression)
    (c p : bytes) :
  encode t compressed = Ok c ->
  encode t (CFlag false) = Ok p ->
  len c <= len p.
Proof.
  unfold encode. destruct (encode_term t) as [e| |]; cbn [bind]; try discriminate.
  cbn [compression_level]. intros Hc Hp. inversion Hp; subst p; clear Hp.
  destruct (compression_level compressed) as [level|].
  - destruct (compress e level) as [err|z]; cbn [call bind] in Hc; [discriminate|].
    destruct (Z.leb_spec (len z + 5) (len e)) as [Hle|Hgt].
    + unfold int4_pack in Hc.
      destruct ((0 <=? len e) && (len e <=? 4294967295)); cbn [bind] in Hc;
        [|discriminate].
      inversion Hc; subst c.
      rewrite !len_cons. lia.
    + inversion Hc. lia.
  - inversion Hc. lia.
Qed.

(** C5.  An atom whose body is [true], [false] or [undefined] decodes to
    [True], [False] or [None], not to an [Atom]; [True], [False] and [None]
    encode to those atoms, the booleans being integers ([int_long]) that
    are nevertheless not written in the integer form. *)
Theorem literal_atoms :
  (forall rest,
     decode_term (["d"%byte; x00; x04] ++ bs "true" ++ rest) = Ok (Bool true, rest) /\
     decode_term (["d"%byte; x00; x05] ++ bs "false" ++ rest) = Ok (Bool false, rest) /\
     decode_term (["d"%byte; x00; x09] ++ bs "undefined" ++ rest) = Ok (NoneV, rest)) /\
  encode_term (Bool true) = Ok (["d"%byte; x00; x04] ++ bs "true") /\
  encode_term (Bool false) = Ok (["d"%byte; x00; x05] ++ bs "false") /\
  encode_term NoneV = Ok (["d"%byte; x00; x09] ++ bs "undefined") /\
  int_long (Bool true) = Some 1 /\ int_long (Bool false) = Some 0 /\
  encode_term (Bool true) <> encode_term (Int 1) /\
  encode_term (Bool false) <> encode_term (Int 0).
Proof.
  split.
  { intros rest. repeat split.
    - apply (fuel_agree 1); [|discriminate].
      exact (decode_atom_ext 0 rest (bs "true") ltac:(vm_compute; discriminate)).
    - apply (fuel_agree 1); [|discriminate].
      exact (decode_atom_ext 0 rest (bs "false") ltac:(vm_compute; discriminate)).
    - apply (fuel_agree 1); [|discriminate].
      exact (decode_atom_ext 0 rest (bs "undefined") ltac:(vm_compute; discriminate)). }
  repeat split; try reflexivity; vm_compute; discriminate.
Qed.

(** C6.  255 is written in the 2-byte small-integer form and 256 in the
    4-byte signed form, and both decode back; [2^100] and [-2^100] are
    written with the small-bignum tag (sign byte, little-endian magnitude)
    and decode to exactly the original value. *)
Theorem integer_width_boundaries :
  encode_term (Int 255) = Ok ["a"%byte; xff] /\
  decode_term ["a"%byte; xff] = Ok (Int 255, []) /\
  encode_term (Int 256) = Ok ["b"%byte; x00; x00; x01; x00] /\
  decode_term ["b"%byte; x00; x00; x01; x00] = Ok (Int 256, []) /\
  encode_term (Int (2 ^ 100)) =
    Ok (["n"%byte; x0d; x00] ++ repeat x00 12 ++ [x10]) /\
  decode_term (["n"%byte; x0d; x00] ++ repeat x00 12 ++ [x10]) =
    Ok (Int (2 ^ 100), []) /\
  encode_term (Int (- 2 ^ 100)) =
    Ok (["n"%byte; x0d; x01] ++ repeat x00 12 ++ [x10]) /\
  decode_term (["n"%byte; x0d; x01] ++ repeat x00 12 ++ [x10]) =
    Ok (Int (- 2 ^ 100), []).
Proof.
  repeat split; vm_compute; reflexivity.
Qed.

(** C7.  A 3-element tuple (small or large header) whose first element is
    the atom [$erlport.opaque], whose second element is an atom [language]
    and whose third is a binary [data] does not decode to a tuple: for
    [language = "python"] the result is what [loads(data)] returns (or
    raises); for any other language atom it is the [OpaqueObject] with
    that data and language.  (A language atom is a decoded [Atom], so not
    one of the bodies [true], [false], [undefined].) *)
Theorem opaque_tuple_decoding (large : bool) (language data rest : bytes) :
  len language <= 255 -> literal_name language = false ->
  len data <= 4294967295 ->
  decode_term (tuple_header large 3 ++ atom_ext marker ++ atom_ext language ++
               binary_ext data ++ rest) =
    if bytes_eqb language python
    then v <- call (loads data) ;; Ok (v, rest)
    else Ok (Opaque (PStr data) language, rest).
Proof.
  intros Hl Hlit Hd.
  apply (fuel_agree 5).
  - change (binary_ext data) with (pystr_ext (PStr data)).
    rewrite (decode_opaque_tuple large (PStr data) language rest 0 Hl Hlit Hd).
    unfold decode_opaque. cbn [str_eq OpaqueObject_init term_of_pystr].
    destruct (bytes_eqb language python); [|reflexivity].
    destruct (loads data); reflexivity.
  - destruct (bytes_eqb language python); [|discriminate].
    destruct (loads data); discriminate.
Qed.

(** C8.  [decode] raises [IncompleteData] on the empty buffer and on the
    one-byte buffer [0x83], and raises the hard "unknown protocol version"
    [ValueError] on every non-empty buffer whose first byte is not [0x83]. *)
Theorem decode_version_marker :
  decode [] = Raise IncompleteData /\
  decode [x83] = Raise IncompleteData /\
  (forall version rest, version <> x83 ->
     decode (version :: rest) = Raise (ValueError "unknown protocol version")).
Proof.
  split; [reflexivity|]. split; [reflexivity|].
  intros version rest Hv. unfold decode.
  destruct (Byte.eqb version x83) eqn:E; [|reflexivity].
  apply Byte.byte_dec_bl in E. contradiction.
Qed.

(** C9.  Whenever [decode_term] succeeds on a buffer, the remainder it
    returns is the buffer with a non-empty prefix taken off; and the loop
    over the children of a composite term hands each child what the
    previous one left, the final remainder being a suffix of the loop's
    input. *)
Theorem decode_term_remainder :
  (forall (b : bytes) (t : term) (remainder : bytes),
     decode_term b = Ok (t, remainder) ->
     exists consumed, consumed <> [] /\ b = consumed ++ remainder) /\
  (forall fuel length tail lst lst' remainder,
     decode_while fuel length tail lst = Ok (lst', remainder) ->
     exists consumed, tail = consumed ++ remainder).
Proof.
  split.
  - intros b t remainder H. exact (proj1 (decode_consumes _) _ _ _ H).
  - intros fuel length tail lst lst' remainder H.
    exact (proj2 (decode_consumes _) _ _ _ _ _ H).
Qed.

(** C10.  A non-empty list of at most 65535 elements, each a boolean or an
    integer in [0, 255], is written in the compact string form: tag [k],
    2-byte length, one byte per element, [True] as byte 1 and [False] as
    byte 0. *)
Theorem compact_list_encoding (l : list term) :
  l <> [] -> len l <= 65535 -> Forall bool_or_byte l ->
  encode_term (List l) = Ok ("k"%byte :: pack_be 2 (len l) ++ map compact_byte l) /\
  (forall i, nth_error l i = Some (Bool true) ->
     nth_error (map compact_byte l) i = Some x01) /\
  (forall i, nth_error l i = Some (Bool false) ->
     nth_error (map compact_byte l) i = Some x00).
Proof.
  intros Hne Hlen Hall. split.
  - cbn [encode_term]. unfold encode_list.
    destruct l as [|t l']; [contradiction|].
    rewrite (array_B_compact Hall).
    destruct (Z.leb_spec (len (t :: l')) 65535); [reflexivity|lia].
  - split; intros i Hi; rewrite nth_error_map, Hi; reflexivity.
Qed.

End Claims.

(** ** The claims at concrete inputs *)

Lemma round_trip_canonical_witness :
  @decode sample_host
    ([x83; "h"%byte; x02; "a"%byte; x01; "m"%byte; x00; x00; x00; x01; "x"%byte]) =
  Ok (Tuple [Int 1; Str [x78]], []).
Proof.
  apply (@round_trip_canonical sample_host (Tuple [Int 1; Str [x78]])); reflexivity.
Defined.

(** C1 as stated fails on text: the encoding of [u"hi"] decodes to the
    list [[104, 105]], not to the text. *)
Lemma round_trip_text_counterexample :
  @encode sample_host (Unicode [104; 105]) (CFlag false) =
    Ok [x83; "k"%byte; x00; x02; x68; x69] /\
  @decode sample_host [x83; "k"%byte; x00; x02; x68; x69] =
    Ok (List [Int 104; Int 105], []) /\
  ~ (forall t e, @encode sample_host t (CFlag false) = Ok e ->
                 @decode sample_host e = Ok (t, [])).
Proof.
  split; [reflexivity|]. split; [reflexivity|].
  intros H. specialize (H (Unicode [104; 105]) _ eq_refl). discriminate H.
Qed.

Lemma truncation_safety_witness :
  @decode sample_host [x83; "h"%byte; x02; "a"%byte] = Raise IncompleteData.
Proof.
  apply (@truncation_safety sample_host (Tuple [Int 1; Int 2]) (CFlag false)
           [x83; "h"%byte; x02; "a"%byte; x01; "a"%byte; x02]).
  - reflexivity.
  - reflexivity.
  - exists [x01; "a"%byte; x02]. split; [discriminate|reflexivity].
  - left. reflexivity.
Defined.

(** C2 as stated fails on a compressed encoding: the first 6 bytes of the
    envelope of the sample (an empty payload, which inflates to nothing)
    make [decode] raise the "invalid compressed tag" [ValueError]. *)
Lemma truncation_compressed_counterexample :
  @encode sample_host (Str sample_str) (CFlag true) =
    Ok ([x83; "P"%byte; x00; x00; x00; x14] ++ sample_deflated) /\
  strict_prefix [x83; "P"%byte; x00; x00; x00; x14]
    ([x83; "P"%byte; x00; x00; x00; x14] ++ sample_deflated) /\
  @decode sample_host [x83; "P"%byte; x00; x00; x00; x14] =
    Raise (ValueError "invalid compressed tag") /\
  @decode sample_host [x83; "P"%byte; x00; x00; x00; x14] <> Raise IncompleteData.
Proof.
  split; [reflexivity|]. split.
  - exists sample_deflated. split; [discriminate|reflexivity].
  - split; [reflexivity|]. vm_compute. discriminate.
Qed.

(** C3 at its boundary: the 15-byte [str] of ['a'] has a 20-byte term
    encoding that zlib deflates to 15 bytes, so the envelope (6 bytes more)
    is exactly as long as the plain form (1 byte more), not smaller; the
    test [len(zlib_term) + 5 <= ln] still passes and the compressed form is
    the output. *)
Theorem compression_boundary_kept :
  @encode sample_host (Str sample_str) (CFlag true) =
    Ok ([x83; "P"%byte; x00; x00; x00; x14] ++ sample_deflated) /\
  @encode sample_host (Str sample_str) (CFlag false) = Ok (x83 :: sample_encoded) /\
  len sample_deflated + 6 = len sample_encoded + 1 /\
  @encode sample_host (Str sample_str) (CFlag true) <>
  @encode sample_host (Str sample_str) (CFlag false).
Proof.
  repeat split; try reflexivity. vm_compute. discriminate.
Qed.

Lemma compression_never_inflates_witness :
  len ([x83; "P"%byte; x00; x00; x00; x14] ++ sample_deflated) <=
  len (x83 :: sample_encoded).
Proof.
  apply (@compression_never_inflates sample_host (Str sample_str) (CLevel 6));
    reflexivity.
Defined.

Lemma opaque_tuple_decoding_witness :
  @decode_term sample_host
    (tuple_header false 3 ++ atom_ext marker ++ atom_ext (bs "ruby") ++
     binary_ext (bs "xyz") ++ [x6a]) =
  Ok (Opaque (PStr (bs "xyz")) (bs "ruby"), [x6a]).
Proof.
  apply (@opaque_tuple_decoding sample_host false (bs "ruby") (bs "xyz") [x6a]).
  - vm_compute. discriminate.
  - reflexivity.
  - vm_compute. discriminate.
Defined.

Lemma decode_version_marker_witness :
  @decode sample_host [x00; x83] = Raise (ValueError "unknown protocol version").
Proof.
  apply (proj2 (proj2 (@decode_version_marker sample_host))). discriminate.
Defined.

Lemma decode_term_remainder_witness :
  exists consumed, consumed <> [] /\
    ["a"%byte; x05; "j"%byte] = consumed ++ ["j"%byte].
Proof.
  apply (proj1 (@decode_term_remainder sample_host) ["a"%byte; x05; "j"%byte]
           (Int 5) ["j"%byte]).
  reflexivity.
Defined.

Lemma compact_list_encoding_witness :
  @encode_term sample_host (List [Bool true; Int 7; Bool false]) =
    Ok ["k"%byte; x00; x03; x01; x07; x00].
Proof.
  refine (proj1 (@compact_list_encoding sample_host [Bool true; Int 7; Bool false] _ _ _)).
  - discriminate.
  - vm_compute. discriminate.
  - apply Forall_cons; [left; now exists true|].
    apply Forall_cons; [right; exists 7; split; [reflexivity|lia]|].
    apply Forall_cons; [left; now exists false|]. apply Forall_nil.
Defined.

(** * Further properties of the codec *)

(** ** Terms and their encodings *)

Section Further.
Context {host : Host}.

(** X1. Decoding the encoding of a [wire_safe] term, with any bytes after
    it, returns the canonical form of the term and exactly those bytes. *)
Theorem decode_encode_canon (t : term) (b rest : bytes) :
  wire_safe t = true -> encode_term t = Ok b ->
  decode_term (b ++ rest) = Ok (canon t, rest).
Proof.
  intros Hw Eb. apply decodes_decode_term. now apply decode_encode_term.
Qed.

(** X2. Two [wire_safe] terms with the same encoding have the same canonical
    form. *)
Theorem encode_term_injective (t1 t2 : term) (b : bytes) :
  wire_safe t1 = true -> wire_safe t2 = true ->
  encode_term t1 = Ok b -> encode_term t2 = Ok b ->
  canon t1 = canon t2.
Proof.
  intros H1 H2 E1 E2.
  pose proof (decodes_decode_term (decode_encode_term t1 H1 [] E1)) as D1.
  pose proof (decodes_decode_term (decode_encode_term t2 H2 [] E2)) as D2.
  congruence.
Qed.

(** X3. The encodings of [wire_safe] terms are prefix-free: if the encoding
    of one term starts with the encoding of another, nothing follows it. *)
Theorem encode_term_prefix_free (t1 t2 : term) (b1 q : bytes) :
  wire_safe t1 = true -> wire_safe t2 = true ->
  encode_term t1 = Ok b1 -> encode_term t2 = Ok (b1 ++ q) ->
  q = [].
Proof.
  intros H1 H2 E1 E2. destruct q as [|x q]; [reflexivity|]. exfalso.
  assert (Hp : strict_prefix b1 (b1 ++ x :: q))
    by (exists (x :: q); split; [discriminate|reflexivity]).
  pose proof (decode_term_cut t2 H2 E2 Hp) as Hcut.
  pose proof (decodes_decode_term (decode_encode_term t1 H1 [] E1)) as D1.
  rewrite app_nil_r in D1. congruence.
Qed.

End Further.

Lemma decode_encode_canon_witness :
  @decode_term sample_host (["k"%byte; x00; x02; x68; x69] ++ ["j"%byte]) =
    Ok (List [Int 104; Int 105], ["j"%byte]).
Proof.
  apply (@decode_encode_canon sample_host (Unicode [104; 105])); reflexivity.
Defined.

Lemma encode_term_injective_witness :
  canon (Unicode [104]) = canon (List [Int 104]).
Proof.
  apply (@encode_term_injective sample_host (Unicode [104]) (List [Int 104])
           ["k"%byte; x00; x01; x68]); reflexivity.
Defined.

Lemma encode_term_prefix_free_witness : @nil byte = [].
Proof.
  apply (@encode_term_prefix_free sample_host (Unicode [104]) (List [Int 104])
           ["k"%byte; x00; x01; x68] []); reflexivity.
Defined.

(** ** The decoder on a buffer with bytes added at its end *)

Section Extend.
Context {host : Host}.

(** The ranges of the bytes and fixed-width integers read so far. *)
Ltac pose_ranges :=
  repeat match goal with
  | |- context [ord ?x] =>
      lazymatch goal with
      | _ : 0 <= ord x <= 255 |- _ => fail
      | _ => pose proof (ord_range x)
      end
  | |- context [unpack_be ?x] =>
      lazymatch goal with
      | _ : 0 <= unpack_be x |- _ => fail
      | _ => pose proof (unpack_be_nonneg x)
      end
  end.

(** Bring the reads of the goal from the extended buffer to the buffer. *)
Ltac norm_goal :=
  repeat first
    [ rewrite slice_app_l by lia
    | rewrite drop_app_l by lia
    | rewrite nth_app_l by lia ].

(** Go through the length tests of a leaf: a failed one is the excluded
    [IncompleteData], a passed one passes on the extended buffer too. *)
Ltac leaf_extend HI HF :=
  rewrite ?len_app;
  repeat match goal with
  | |- context [Z.ltb (len ?X) ?k] =>
      destruct (Z.ltb_spec (len X) k);
      [ solve [ contradiction HI; reflexivity ]
      | pose_ranges; rewrite ?len_app; decide_tests; cbv iota; norm_goal;
        cbn [bind] in HI, HF |- *; rewrite ?len_app ]
  end.

Lemma decode_extend (f : nat) :
  (forall s q,
     decode_term_fuel f s <> Raise IncompleteData ->
     decode_term_fuel f s <> OutOfFuel ->
     decode_term_fuel f (s ++ q) = with_trailing q (decode_term_fuel f s)) /\
  (forall n s q acc,
     decode_while f n s acc <> Raise IncompleteData ->
     decode_while f n s acc <> OutOfFuel ->
     decode_while f n (s ++ q) acc = with_trailing q (decode_while f n s acc)).
Proof.
  induction f as [|f [IHt IHw]]; split.
  - intros s q _ H. now contradiction H.
  - intros n s q acc _. cbn [decode_while].
    destruct (n >? 0); intros H; [now contradiction H|reflexivity].
  - intros s q HI HF. destruct s as [|tag s']; [now contradiction HI|].
    pose proof (len_nonneg q) as Hq. pose proof (len_nonneg s') as Hs'.
    change ((tag :: s') ++ q) with (tag :: s' ++ q).
    cbn [decode_term_fuel] in HI, HF |- *.
    change (tag :: s' ++ q) with ((tag :: s') ++ q).
    set (S := tag :: s') in *.
    assert (HS : len S = 1 + len s') by apply len_cons.
    clearbody S.
    unfold int2_unpack, int4_unpack, signed_int4_unpack in *.
    revert HI HF. destruct (Byte.eqb tag "d"); intros HI HF.
    { leaf_extend HI HF.
      repeat match goal with
      | |- context [if ?c then _ else _] => destruct c; try reflexivity
      end.
      destruct (Atom _); reflexivity. }
    revert HI HF. destruct (Byte.eqb tag "j"); intros HI HF.
    { norm_goal. reflexivity. }
    revert HI HF. destruct (Byte.eqb tag "k"); intros HI HF.
    { leaf_extend HI HF. reflexivity. }
    revert HI HF. destruct (tag_in tag (bs "lhi")); intros HI HF.
    { assert (Hcomposite : forall k length, 0 <= k <= len S ->
        let after (x0 : list term * bytes) :=
          let (lst, tail0) := x0 in
          if Byte.eqb tag "l" then
            match tail0 with
            | [] => Raise IncompleteData
            | c :: _ =>
                if negb (Byte.eqb c "j") then
                  '(improper_tail, tail) <- decode_term_fuel f tail0 ;;
                  il <- ImproperList_init lst improper_tail ;;
                  Ok (il, tail)
                else Ok (List lst, drop 1 tail0)
            end
          else if (len lst =? 3) && str_eq (nth 0 lst NoneV) marker then
            o <- decode_opaque (nth 2 lst NoneV) (nth 1 lst NoneV) ;;
            Ok (o, tail0)
          else Ok (Tuple lst, tail0) in
        bind (decode_while f length (drop k S) []) after <> Raise IncompleteData ->
        bind (decode_while f length (drop k S) []) after <> OutOfFuel ->
        bind (decode_while f length (drop k S ++ q) []) after =
          with_trailing q (bind (decode_while f length (drop k S) []) after)).
      { intros k length Hk after HI' HF'.
        specialize (IHw length (drop k S) q []).
        destruct (decode_while f length (drop k S) []) as [[lst r1]|e|] eqn:Ew;
          cbn [bind] in HI', HF' |- *.
        - rewrite IHw by discriminate. cbn [with_trailing bind].
          unfold after in *. destruct (Byte.eqb tag "l").
          + destruct r1 as [|c r1']; [now contradiction HI'|].
            cbn [app]. destruct (negb (Byte.eqb c "j")); [|reflexivity].
            change (c :: r1' ++ q) with ((c :: r1') ++ q).
            specialize (IHt (c :: r1') q).
            destruct (decode_term_fuel f (c :: r1')) as [[it r2]|e|] eqn:Et;
              cbn [bind] in HI', HF' |- *.
            * rewrite IHt by discriminate. cbn [with_trailing bind].
              destruct (ImproperList_init lst it); reflexivity.
            * rewrite IHt by (assumption || discriminate). reflexivity.
            * now contradiction HF'.
          + destruct ((len lst =? 3) && str_eq (nth 0 lst NoneV) marker);
              [|reflexivity].
            destruct (decode_opaque (nth 2 lst NoneV) (nth 1 lst NoneV));
              reflexivity.
        - rewrite IHw by
            (discriminate ||
             (intros C; apply HI'; injection C as ->; reflexivity)).
          reflexivity.
        - now contradiction HF'. }
      revert HI HF. destruct (Byte.eqb tag "h"); intros HI HF.
      - leaf_extend HI HF.
        apply (Hcomposite 2); [lia|exact HI|exact HF].
      - leaf_extend HI HF.
        apply (Hcomposite 5); [lia|exact HI|exact HF]. }
    revert HI HF. destruct (Byte.eqb tag "a"); intros HI HF.
    { leaf_extend HI HF. reflexivity. }
    revert HI HF. destruct (Byte.eqb tag "b"); intros HI HF.
    { leaf_extend HI HF. reflexivity. }
    revert HI HF. destruct (Byte.eqb tag "m"); intros HI HF.
    { leaf_extend HI HF. reflexivity. }
    revert HI HF. destruct (Byte.eqb tag "F"); intros HI HF.
    { leaf_extend HI HF. reflexivity. }
    revert HI HF. destruct (tag_in tag (bs "no")); intros HI HF; [|reflexivity].
    revert HI HF. destruct (Byte.eqb tag "n"); intros HI HF.
    { leaf_extend HI HF. reflexivity. }
    { leaf_extend HI HF. reflexivity. }
  - intros n s q acc HI HF. cbn [decode_while] in *.
    destruct (n >? 0); [|reflexivity].
    specialize (IHt s q).
    destruct (decode_term_fuel f s) as [[t r1]|e|] eqn:Et;
      cbn [bind] in HI, HF |- *.
    + rewrite IHt by discriminate. cbn [with_trailing bind].
      now apply IHw.
    + rewrite IHt by
        (discriminate || (intros C; apply HI; injection C as ->; reflexivity)).
      reflexivity.
    + now contradiction HF.
Qed.

(** X4. Bytes added after a buffer pass through [decode_term] untouched: the
    buffer decodes to a term and a remainder exactly when the extended
    buffer decodes to the same term and the remainder followed by the added
    bytes. *)
Theorem decode_term_trailing (s q : bytes) (t : term) (r : bytes) :
  decode_term s = Ok (t, r) <-> decode_term (s ++ q) = Ok (t, r ++ q).
Proof.
  split; intros H.
  - unfold decode_term in H.
    apply (fuel_agree (2 * List.length s + 1)); [|discriminate].
    rewrite (proj1 (decode_extend _)), H by (rewrite H; discriminate).
    reflexivity.
  - unfold decode_term in H.
    apply (proj1 (decode_prefix _)) in H. rewrite len_app in H.
    pose proof (len_nonneg r).
    destruct (Z.leb_spec (len q) (len r + len q)); [|lia].
    destruct H as (r0 & Hr & H). apply app_inv_tail in Hr. subst r0.
    eapply fuel_agree; [exact H|discriminate].
Qed.

(** X5. An exception of [decode_term] other than [IncompleteData] is final:
    no bytes added to the buffer change it. *)
Theorem decode_term_error_final (s q : bytes) (e : exn) :
  decode_term s = Raise e -> e <> IncompleteData ->
  decode_term (s ++ q) = Raise e.
Proof.
  unfold decode_term at 1. intros H He.
  apply (fuel_agree (2 * List.length s + 1)); [|discriminate].
  rewrite (proj1 (decode_extend _)), H; [reflexivity| |];
    rewrite H; [congruence|discriminate].
Qed.

(** X6. A buffer cut inside the bytes of its first term raises
    [IncompleteData], whatever the buffer holds. *)
Theorem decode_term_cut_inside (s q : bytes) (t : term) (r : bytes) :
  decode_term (s ++ q) = Ok (t, r) -> len r < len q ->
  decode_term s = Raise IncompleteData.
Proof.
  unfold decode_term at 1. intros H Hlen.
  apply (proj1 (decode_prefix _)) in H.
  destruct (Z.leb_spec (len q) (len r)); [lia|].
  eapply fuel_agree; [exact H|discriminate].
Qed.
End Extend.

Lemma decode_term_trailing_witness :
  @decode_term sample_host (["a"%byte; x05] ++ ["j"%byte]) =
    Ok (Int 5, [] ++ ["j"%byte]).
Proof.
  apply (proj1 (@decode_term_trailing sample_host ["a"%byte; x05] ["j"%byte]
                  (Int 5) [])).
  reflexivity.
Defined.

Lemma decode_term_error_final_witness :
  @decode_term sample_host (["h"%byte; x01; "z"%byte] ++ ["j"%byte]) =
    Raise (ValueError "unsupported data").
Proof.
  apply (@decode_term_error_final sample_host ["h"%byte; x01; "z"%byte]
           ["j"%byte]).
  - reflexivity.
  - discriminate.
Defined.

Lemma decode_term_cut_inside_witness :
  @decode_term sample_host ["h"%byte; x02; "a"%byte; x01] = Raise IncompleteData.
Proof.
  apply (@decode_term_cut_inside sample_host ["h"%byte; x02; "a"%byte; x01]
           ["a"%byte; x02; "j"%byte] (Tuple [Int 1; Int 2]) ["j"%byte]).
  - reflexivity.
  - vm_compute. reflexivity.
Defined.

(** ** What the constructors refuse *)

Section Refused.
Context {host : Host}.

Lemma long_name_not_literal (name : bytes) :
  255 < len name -> literal_name name = false.
Proof.
  intros Hn. unfold literal_name.
  repeat match goal with
  | |- context [bytes_eqb name ?x] =>
      let E := fresh "E" in
      destruct (bytes_eqb name x) eqn:E;
      [ apply bytes_eqb_eq in E; subst name; vm_compute in Hn; discriminate Hn
      | ]
  end.
  reflexivity.
Qed.

(** X7. An atom on the wire of more than 255 bytes (the 2-byte length field
    allows up to 65535) is refused by [Atom]: [decode_term] raises
    [ValueError], not [IncompleteData]. *)
Theorem decode_long_atom (name rest : bytes) :
  255 < len name <= 65535 ->
  decode_term (atom_ext name ++ rest) = Raise (ValueError "invalid atom length").
Proof.
  intros [Hlo Hhi]. apply (fuel_agree 1); [|discriminate].
  unfold atom_ext. cbn [app]. rewrite <- app_assoc.
  rewrite decode_atom_ext by exact Hhi.
  pose proof (long_name_not_literal name Hlo) as Hlit. unfold literal_name in Hlit.
  apply orb_false_iff in Hlit as [Hlit Hu]. apply orb_false_iff in Hlit as [Ht Hf].
  rewrite Ht, Hf, Hu. unfold Atom.
  destruct (Z.gtb_spec (len name) 255); [reflexivity|lia].
Qed.

(** X8. A list header that announces no element, followed by a term that is
    not the empty list, is an improper list without elements: once the tail
    has decoded, [ImproperList] refuses it. *)
Theorem decode_empty_improper_list (c : byte) (s : bytes) (t : term) (r : bytes) :
  c <> "j"%byte -> decode_term (c :: s) = Ok (t, r) ->
  decode_term ("l"%byte :: pack_be 4 0 ++ c :: s) =
    Raise (ValueError "empty list not allowed").
Proof.
  intros Hc H. unfold decode_term in H.
  eapply (fuel_agree (S _)); [|discriminate].
  rewrite decode_list_header by lia.
  rewrite decode_while_done by lia. cbn [bind].
  destruct (Byte.eqb c "j") eqn:Ec;
    [apply Byte.byte_dec_bl in Ec; contradiction|].
  cbn [negb]. rewrite H. reflexivity.
Qed.

(** X9. An improper list whose tail is a text is accepted by the encoder,
    the tail being written as the list of its code points; the decoder then
    finds a list in tail position: it raises [TypeError] unless the text is
    empty, in which case a proper list comes back. *)
Theorem improper_list_text_tail (l : list term) (cps : list Z) (b rest : bytes) :
  l <> [] -> forallb wire_safe l = true ->
  encode_term (ImproperList l (Unicode cps)) = Ok b ->
  decode_term (b ++ rest) =
    match cps with
    | [] => Ok (List (map canon l), rest)
    | _ :: _ => Raise (TypeError "non list object expected for tail")
    end.
Proof.
  intros Hne Hwl Henc. cbn [encode_term] in Henc.
  destruct (Z.gtb_spec (len l) 4294967295) as [|Hlen]; [discriminate|].
  destruct (join_map encode_term l) as [body| |] eqn:Ej; cbn [bind] in Henc;
    try discriminate.
  destruct (encode_list (@Some Z) encode_int cps) as [tb| |] eqn:Et;
    cbn [bind] in Henc; try discriminate.
  ok_subst Henc.
  assert (Hall : Forall (fun x => forall b rest, encode_term x = Ok b ->
                   decodes_to (b ++ rest) (canon x, rest)) l).
  { apply Forall_forall. intros x Hx b' rest' Hb.
    apply decode_encode_term; [|exact Hb].
    rewrite forallb_forall in Hwl. now apply Hwl. }
  destruct (decode_children encode_term canon Hall (tb ++ rest) [] Ej)
    as [f1 H1].
  assert (Hl : exists x l', map canon l = x :: l').
  { destruct l as [|x l']; [contradiction|]. now exists (canon x), (map canon l'). }
  destruct Hl as (x & l' & Hl).
  pose proof (len_nonneg l).
  destruct cps as [|z cps'].
  - cbn in Et. ok_subst Et.
    apply (fuel_agree (S f1)); [|discriminate].
    cbn [app]. rewrite <- !app_assoc.
    rewrite decode_list_header by lia.
    rewrite H1 by lia. reflexivity.
  - assert (Hd : decodes_to (tb ++ rest) (List (map Int (z :: cps')), rest)).
    { pose proof (@decode_encode_term _ (Unicode (z :: cps')) eq_refl tb rest Et)
        as Hd. exact Hd. }
    destruct Hd as [f2 H2].
    assert (Htag : exists c tb', tb = c :: tb' /\ Byte.eqb c "j" = false).
    { unfold encode_list in Et.
      repeat step Et; try discriminate Et; injection Et as <-;
        eexists; eexists; (split; [reflexivity|reflexivity]). }
    destruct Htag as (c & tb' & -> & Hc).
    apply (fuel_agree (S (Nat.max f1 f2))); [|discriminate].
    cbn [app]. rewrite <- !app_assoc.
    rewrite decode_list_header by lia.
    rewrite H1 by lia. cbn [bind app]. rewrite Hc. cbn [negb].
    change (c :: tb' ++ rest) with ((c :: tb') ++ rest).
    rewrite H2 by lia. cbn [bind]. rewrite Hl. reflexivity.
Qed.
End Refused.

Lemma decode_long_atom_witness :
  @decode_term sample_host (atom_ext (repeat "a"%byte 256) ++ []) =
    Raise (ValueError "invalid atom length").
Proof.
  apply (@decode_long_atom sample_host (repeat "a"%byte 256) []).
  vm_compute. split; [reflexivity|discriminate].
Defined.

Lemma decode_empty_improper_list_witness :
  @decode_term sample_host ("l"%byte :: pack_be 4 0 ++ ["a"%byte; x07]) =
    Raise (ValueError "empty list not allowed").
Proof.
  apply (@decode_empty_improper_list sample_host "a" [x07] (Int 7) []).
  - discriminate.
  - reflexivity.
Defined.

Lemma improper_list_text_tail_witness :
  @decode_term sample_host
    (["l"%byte; x00; x00; x00; x01; "a"%byte; x01; "k"%byte; x00; x01; x68] ++ []) =
    Raise (TypeError "non list object expected for tail").
Proof.
  apply (@improper_list_text_tail sample_host [Int 1] [104]).
  - discriminate.
  - reflexivity.
  - reflexivity.
Defined.

(** ** Opaque objects and unmapped values *)

Section OpaqueForms.
Context {host : Host}.

(** A 3-tuple read from the wire, given what its three elements decode
    to. *)
Lemma decode_triple (large : bool) (b1 b2 b3 rest : bytes) (t1 t2 t3 : term)
    (f : nat) :
  (forall g r, decode_term_fuel (S g) (b1 ++ r) = Ok (t1, r)) ->
  (forall g r, decode_term_fuel (S g) (b2 ++ r) = Ok (t2, r)) ->
  (forall g r, decode_term_fuel (S g) (b3 ++ r) = Ok (t3, r)) ->
  decode_term_fuel (S (S (S (S (S f)))))
    (tuple_header large 3 ++ b1 ++ b2 ++ b3 ++ rest) =
    if str_eq t1 marker then o <- decode_opaque t3 t2 ;; Ok (o, rest)
    else Ok (Tuple [t1; t2; t3], rest).
Proof.
  intros H1 H2 H3.
  rewrite decode_tuple_header by (destruct large; lia).
  cbn [decode_while]. decide_tests.
  rewrite H1. cbn [bind]. decide_tests.
  rewrite H2. cbn [bind]. decide_tests.
  rewrite H3. cbn [bind app]. decide_tests. cbn [bind app nth].
  change (len [t1; t2; t3]) with 3. reflexivity.
Qed.

(** X10. The marker of an opaque object is compared by value ([lst[0] ==
    opaque]): a 3-tuple whose first element is the binary [$erlport.opaque]
    is taken for an opaque object just as with the atom. *)
Theorem opaque_marker_as_binary (large : bool) (language data rest : bytes) :
  len language <= 255 -> literal_name language = false ->
  len data <= 4294967295 ->
  decode_term (tuple_header large 3 ++ binary_ext marker ++ atom_ext language ++
               binary_ext data ++ rest) =
    if bytes_eqb language python
    then v <- call (loads data) ;; Ok (v, rest)
    else Ok (Opaque (PStr data) language, rest).
Proof.
  intros Hl Hlit Hd.
  assert (H : decode_term_fuel 5
                (tuple_header large 3 ++ binary_ext marker ++
                 atom_ext language ++ binary_ext data ++ rest) =
              if bytes_eqb language python
              then v <- call (loads data) ;; Ok (v, rest)
              else Ok (Opaque (PStr data) language, rest)).
  { rewrite (@decode_triple large _ _ _ rest (Str marker) (AtomV language)
               (Str data) 0).
    - change (str_eq (Str marker) marker) with (bytes_eqb marker marker).
      rewrite bytes_eqb_refl. unfold decode_opaque. cbn [str_eq OpaqueObject_init].
      destruct (bytes_eqb language python); reflexivity.
    - intros g r. apply decode_binary_plain. vm_compute. discriminate.
    - intros g r. now apply decode_atom_plain.
    - intros g r. now apply decode_binary_plain. }
  apply (fuel_agree 5); [exact H|].
  destruct (bytes_eqb language python); [|discriminate].
  destruct (loads data); discriminate.
Qed.

(** X11. The language of an opaque object is compared with ["python"] before
    it is required to be an atom: given as a binary, the language [python]
    still has the data unpickled, and any other language raises the
    [TypeError] of [OpaqueObject]. *)
Theorem opaque_language_as_binary (large : bool) (language data rest : bytes) :
  len language <= 4294967295 -> len data <= 4294967295 ->
  decode_term (tuple_header large 3 ++ atom_ext marker ++ binary_ext language ++
               binary_ext data ++ rest) =
    if bytes_eqb language python
    then v <- call (loads data) ;; Ok (v, rest)
    else Raise (TypeError "language must be instance of Atom").
Proof.
  intros Hl Hd.
  assert (H : decode_term_fuel 5
                (tuple_header large 3 ++ atom_ext marker ++
                 binary_ext language ++ binary_ext data ++ rest) =
              if bytes_eqb language python
              then v <- call (loads data) ;; Ok (v, rest)
              else Raise (TypeError "language must be instance of Atom")).
  { rewrite (@decode_triple large _ _ _ rest (AtomV marker) (Str language)
               (Str data) 0).
    - change (str_eq (AtomV marker) marker) with (bytes_eqb marker marker).
      rewrite bytes_eqb_refl. unfold decode_opaque. cbn [str_eq OpaqueObject_init].
      destruct (bytes_eqb language python); reflexivity.
    - intros g r. apply decode_atom_plain; vm_compute; [discriminate|reflexivity].
    - intros g r. now apply decode_binary_plain.
    - intros g r. now apply decode_binary_plain. }
  apply (fuel_agree 5); [exact H|].
  destruct (bytes_eqb language python); [|discriminate].
  destruct (loads data); discriminate.
Qed.

(** X12. A value with no mapping travels pickled: where [dumps] succeeds,
    [encode] succeeds, and [decode] of the output returns (or raises) what
    [loads] does on the pickled bytes. *)
Theorem native_round_trip (obj : positive) (data : bytes) :
  dumps obj = Some data -> len data <= 4294967295 ->
  exists e, encode (Native obj) (CFlag false) = Ok e /\
    decode e = (v <- call (loads data) ;; Ok (v, [])).
Proof.
  intros Hdumps Hlen.
  exists (x83 :: tuple_header false 3 ++ atom_ext marker ++ atom_ext python ++
          binary_ext data).
  split.
  - unfold encode. cbn [encode_term]. rewrite Hdumps.
    unfold OpaqueObject_encode.
    change (bytes_eqb python (bs "erlang")) with false. cbv iota.
    change (encode_atom marker) with (Ok (atom_ext marker)).
    change (encode_atom python) with (Ok (atom_ext python)).
    unfold encode_str. destruct (Z.gtb_spec (len data) 4294967295); [lia|].
    reflexivity.
  - change (tuple_header false 3) with ["h"%byte; chr 3]. cbn [app].
    rewrite decode_uncompressed by discriminate.
    assert (H : decode_term_fuel 5
                  (tuple_header false 3 ++ atom_ext marker ++ atom_ext python ++
                   pystr_ext (PStr data) ++ []) =
                (v <- call (loads data) ;; Ok (v, []))).
    { rewrite decode_opaque_tuple; [reflexivity| | |exact Hlen];
        vm_compute; [discriminate|reflexivity]. }
    cbn [pystr_ext] in H. rewrite app_nil_r in H.
    apply (fuel_agree 5); [exact H|]. destruct (loads data); discriminate.
Qed.

(** X13. An opaque object of language [erlang] is written as its bare data:
    when the data is the encoding of a term, [decode] returns that term (in
    canonical form), not an opaque object. *)
Theorem erlang_opaque_pass_through (t : term) (b : bytes) :
  wire_safe t = true -> encode_term t = Ok b ->
  encode (Opaque (PStr b) (bs "erlang")) (CFlag false) = Ok (x83 :: b) /\
  decode (x83 :: b) = Ok (canon t, []).
Proof.
  intros Hw Eb. split; [reflexivity|].
  destruct (encode_first_tag t Hw Eb) as (c & b' & -> & HP & _).
  rewrite decode_uncompressed by exact HP.
  pose proof (decodes_decode_term (decode_encode_term t Hw [] Eb)) as Hd.
  now rewrite app_nil_r in Hd.
Qed.

(** X14. Apart from the bare data of an [erlang] opaque object, everything
    [encode] writes without compression is the version byte followed by one
    of the tags [decode_term] knows, so never by the [P] of the compressed
    envelope. *)
Theorem encode_first_tag_known (t : term) (e : bytes) :
  (forall data, t <> Opaque data (bs "erlang")) ->
  encode t (CFlag false) = Ok e ->
  exists c b, e = x83 :: c :: b /\ tag_in c (bs "hiljkdmabnoF") = true /\
    is_compressed e = false.
Proof.
  intros Hne He. unfold encode in He.
  destruct (encode_term t) as [b| |] eqn:Eb; cbn [bind compression_level] in He;
    try discriminate.
  injection He as <-.
  assert (Hsolve : forall c b', b = c :: b' ->
            tag_in c (bs "hiljkdmabnoF") = true ->
            exists c b0, x83 :: b = x83 :: c :: b0 /\
              tag_in c (bs "hiljkdmabnoF") = true /\
              is_compressed (x83 :: b) = false).
  { intros c b' -> Hc. exists c, b'. split; [reflexivity|]. split; [exact Hc|].
    unfold is_compressed. change (slice 1 2 (x83 :: c :: b')) with [c].
    apply bytes_eqb_neq. intros E. injection E as ->. discriminate Hc. }
  assert (Hopaque : forall d l, bytes_eqb l (bs "erlang") = false ->
            OpaqueObject_encode d l = Ok b ->
            exists b', b = "h"%byte :: b').
  { intros d l Hl H. unfold OpaqueObject_encode in H. rewrite Hl in H.
    repeat step H. injection H as <-. eexists. reflexivity. }
  destruct t as [z|v| |i|s|s|cps|l|l tail|l|data language|obj];
    cbn [encode_term] in Eb.
  all: try (unfold encode_int, encode_atom, encode_str, encode_list in Eb;
            cbv zeta in Eb; repeat step Eb;
            injection Eb as Hb; cbn [app] in Hb; symmetry in Hb;
            exact (Hsolve _ _ Hb eq_refl)).
  - destruct (len l <=? 255); [|destruct (len l <=? 4294967295)];
      cbn [bind] in Eb; try discriminate;
      (destruct (join_map encode_term l); cbn [bind] in Eb; try discriminate;
       injection Eb as Hb; cbn [app] in Hb; symmetry in Hb;
       exact (Hsolve _ _ Hb eq_refl)).
  - destruct (Hopaque data language) as [b' ->]; [|exact Eb|].
    + apply bytes_eqb_neq. intros ->. now apply (Hne data).
    + now apply (Hsolve "h"%byte b').
  - destruct (dumps obj) as [data|]; [|discriminate].
    destruct (Hopaque (PStr data) python eq_refl Eb) as [b' ->].
    now apply (Hsolve "h"%byte b').
Qed.
End OpaqueForms.

Lemma opaque_marker_as_binary_witness :
  @decode_term sample_host
    (tuple_header false 3 ++ binary_ext marker ++ atom_ext (bs "ruby") ++
     binary_ext (bs "xyz") ++ [x6a]) =
  Ok (Opaque (PStr (bs "xyz")) (bs "ruby"), [x6a]).
Proof.
  apply (@opaque_marker_as_binary sample_host false (bs "ruby") (bs "xyz") [x6a]).
  - vm_compute. discriminate.
  - reflexivity.
  - vm_compute. discriminate.
Defined.

Lemma opaque_language_as_binary_witness :
  @decode_term pickling_host
    (tuple_header false 3 ++ atom_ext marker ++ binary_ext python ++
     binary_ext (bs "pickled") ++ []) =
  Ok (Native 1, []).
Proof.
  apply (@opaque_language_as_binary pickling_host false python (bs "pickled") []).
  - vm_compute. discriminate.
  - vm_compute. discriminate.
Defined.

Lemma native_round_trip_witness :
  exists e, @encode pickling_host (Native 1) (CFlag false) = Ok e /\
    @decode pickling_host e = Ok (Native 1, []).
Proof.
  apply (@native_round_trip pickling_host 1 (bs "pickled")).
  - reflexivity.
  - vm_compute. discriminate.
Defined.

Lemma erlang_opaque_pass_through_witness :
  @encode sample_host (Opaque (PStr ["a"%byte; x05]) (bs "erlang")) (CFlag false) =
    Ok [x83; "a"%byte; x05] /\
  @decode sample_host [x83; "a"%byte; x05] = Ok (Int 5, []).
Proof.
  apply (@erlang_opaque_pass_through sample_host (Int 5)); reflexivity.
Defined.

Lemma encode_first_tag_known_witness :
  exists c b, [x83; "j"%byte] = x83 :: c :: b /\
    tag_in c (bs "hiljkdmabnoF") = true /\ is_compressed [x83; "j"%byte] = false.
Proof.
  apply (@encode_first_tag_known sample_host (List [])).
  - discriminate.
  - reflexivity.
Defined.

(** ** The envelope and the text wrapper *)

Section Envelope.
Context {host : Host}.

Lemma decode_envelope (size z rest term_string unused : bytes) :
  len size = 4 ->
  decompressobj (z ++ rest) = inr (term_string, unused) ->
  decode ([x83; "P"%byte] ++ size ++ z ++ rest) =
    if negb (len term_string =? int4_unpack size) then
      Raise (ValueError "invalid compressed tag")
    else
      '(term, _tail) <- decode_term term_string ;; Ok (term, unused).
Proof.
  intros Hsize Hz. cbn [app]. unfold decode.
  change (Byte.eqb x83 x83) with true. cbn [negb].
  change (slice 1 2 (x83 :: "P"%byte :: size ++ z ++ rest)) with ["P"%byte].
  change (bytes_eqb ["P"%byte] (bs "P")) with true. cbv iota.
  pose proof (len_nonneg z). pose proof (len_nonneg rest).
  rewrite !len_cons, !len_app, Hsize. decide_tests.
  replace (drop 6 (x83 :: "P"%byte :: size ++ z ++ rest)) with (z ++ rest).
  2:{ symmetry. apply (drop_app (x83 :: "P"%byte :: size)).
      rewrite !len_cons, Hsize. reflexivity. }
  replace (slice 2 6 (x83 :: "P"%byte :: size ++ z ++ rest)) with size.
  2:{ symmetry. apply (slice_app [x83; "P"%byte] size (z ++ rest)).
      - reflexivity.
      - rewrite Hsize. reflexivity. }
  rewrite Hz. reflexivity.
Qed.

(** X15. With a zlib whose [decompressobj] gives back what [compress] was
    given and leaves what follows the stream in [unused_data], [decode]
    inverts [encode] at every compression setting: for a [wire_safe] term,
    the output of [encode] followed by any bytes decodes to the canonical
    form of the term and those bytes. *)
Theorem compressed_round_trip (t : term) (compressed : compression)
    (e rest : bytes) :
  (forall b level z,
     encode_term t = Ok b -> compression_level compressed = Some level ->
     compress b level = inr z -> decompressobj (z ++ rest) = inr (b, rest)) ->
  wire_safe t = true ->
  encode t compressed = Ok e ->
  decode (e ++ rest) = Ok (canon t, rest).
Proof.
  intros Hzlib Hw He. unfold encode in He.
  destruct (encode_term t) as [b| |] eqn:Eb; cbn [bind] in He; try discriminate.
  pose proof (decodes_decode_term (decode_encode_term t Hw rest Eb)) as Hd.
  pose proof (decodes_decode_term (decode_encode_term t Hw [] Eb)) as Hd0.
  rewrite app_nil_r in Hd0.
  assert (Hplain : e = x83 :: b -> decode (e ++ rest) = Ok (canon t, rest)).
  { intros ->. destruct (encode_first_tag t Hw Eb) as (c & b' & -> & HP & _).
    cbn [app]. rewrite decode_uncompressed by exact HP. exact Hd. }
  destruct (compression_level compressed) as [level|];
    [|apply Hplain; congruence].
  destruct (compress b level) as [err|z] eqn:Ez; cbn [call bind] in He;
    [discriminate|].
  destruct (len z + 5 <=? len b); [|apply Hplain; congruence].
  unfold int4_pack in He.
  destruct ((0 <=? len b) && (len b <=? 4294967295)) eqn:Hrange;
    cbn [bind] in He; [|discriminate].
  apply andb_true_iff in Hrange as [H0 H1]. apply Z.leb_le in H0, H1.
  ok_subst He. rewrite <- !app_assoc.
  rewrite (@decode_envelope (pack_be 4 (len b)) z rest b rest).
  - unfold int4_unpack. rewrite unpack_pack_be_small
      by (change (256 ^ Z.of_nat 4) with 4294967296; lia).
    rewrite Z.eqb_refl. cbn [negb]. rewrite Hd0. reflexivity.
  - apply len_pack_be.
  - now apply (Hzlib b level z).
Qed.

(** X16. [String] gives the text back from what the codec returns for it: a
    text whose code points are within the build's [maxunicode] is encoded,
    decoded to a list of integers, and rebuilt by [String] as the same text.
    *)
Theorem text_round_trip (maxunicode : Z) (cps : list Z) (e : bytes) :
  Forall (fun c => 0 <= c <= maxunicode) cps ->
  encode (Unicode cps) (CFlag false) = Ok e ->
  exists v, decode e = Ok (v, []) /\ String_new maxunicode v = inr (Unicode cps).
Proof.
  intros Hcps He. exists (List (map Int cps)). split.
  - unfold encode in He.
    destruct (encode_term (Unicode cps)) as [b| |] eqn:Eb;
      cbn [bind compression_level] in He; try discriminate.
    injection He as <-.
    destruct (@encode_first_tag _ (Unicode cps) b eq_refl Eb)
      as (c & b' & -> & HP & _).
    rewrite decode_uncompressed by exact HP.
    pose proof (decodes_decode_term
                  (@decode_encode_term _ (Unicode cps) eq_refl _ [] Eb)) as Hd.
    now rewrite app_nil_r in Hd.
  - cbn [String_new]. clear He.
    replace (join_unichr maxunicode (map Int cps)) with
      (@inr string_error _ cps); [reflexivity|].
    induction Hcps as [|c l Hc _ IH]; [reflexivity|].
    cbn [map join_unichr]. unfold unichr. cbn [int_long].
    destruct (Z.leb_spec 0 c); [|lia].
    destruct (Z.leb_spec c maxunicode); [|lia].
    cbn [andb]. now rewrite <- IH.
Qed.

End Envelope.

Lemma compressed_round_trip_witness :
  @decode sample_host
    (([x83; "P"%byte; x00; x00; x00; x14] ++ sample_deflated) ++ []) =
    Ok (Str sample_str, []).
Proof.
  apply (@compressed_round_trip sample_host (Str sample_str) (CFlag true)).
  - intros b level z Hb Hl Hz.
    injection Hb as <-. injection Hl as <-. injection Hz as <-. reflexivity.
  - reflexivity.
  - reflexivity.
Defined.

Lemma text_round_trip_witness :
  exists v, @decode sample_host [x83; "k"%byte; x00; x02; x68; x69] = Ok (v, []) /\
    String_new 1114111 v = inr (Unicode [104; 105]).
Proof.
  apply (@text_round_trip sample_host 1114111 [104; 105]).
  - repeat constructor; lia.
  - reflexivity.
Defined.

Lemma join_unichr_spec (maxunicode : Z) (l : list term) (cps : list Z) :
  join_unichr maxunicode l = inr cps <->
  Forall2 (fun t c => int_long t = Some c /\ 0 <= c <= maxunicode) l cps.
Proof.
  revert cps. induction l as [|t l IH]; intros cps; cbn [join_unichr].
  - split.
    + intros H. injection H as <-. constructor.
    + intros H. inversion H. reflexivity.
  - unfold unichr. split.
    + intros H. destruct (int_long t) as [z|] eqn:Et; [|discriminate].
      destruct ((0 <=? z) && (z <=? maxunicode)) eqn:Ez; [|discriminate].
      destruct (join_unichr maxunicode l) as [err|cs] eqn:Ej; [discriminate|].
      injection H as <-. apply andb_true_iff in Ez as [H0 H1].
      apply Z.leb_le in H0, H1. constructor; [split; [exact Et|lia]|]. apply IH. reflexivity.
    + intros H. inversion H as [|t' c l' cs [Ht Hc] Hl]; subst.
      rewrite Ht. apply IH in Hl. rewrite Hl.
      destruct (Z.leb_spec 0 c); [|lia]. destruct (Z.leb_spec c maxunicode); [|lia].
      reflexivity.
Qed.



(** ** The digits of a bignum *)

Lemma magnitude_loop_minimal (fuel : nat) (z : Z) :
  0 < z < 2 ^ Z.of_nat fuel ->
  256 ^ (len (magnitude_loop fuel z) - 1) <= z.
Proof.
  revert z. induction fuel as [|f IH]; intros z Hz.
  - simpl in Hz. lia.
  - cbn [magnitude_loop]. destruct (Z.eqb_spec z 0) as [->|Hnz]; [lia|].
    rewrite len_cons. rewrite Z.shiftr_div_pow2 by lia. change (2 ^ 8) with 256.
    replace (1 + len (magnitude_loop f (z / 256)) - 1)
      with (len (magnitude_loop f (z / 256))) by lia.
    destruct (Z.eq_dec (z / 256) 0) as [E|E].
    + rewrite E. destruct f; cbn; lia.
    + assert (Hq : 0 < z / 256).
      { pose proof (Z.div_pos z 256 ltac:(lia) ltac:(lia)). lia. }
      assert (Hb : z / 256 < 2 ^ Z.of_nat f).
      { rewrite Nat2Z.inj_succ, Z.pow_succ_r in Hz by lia.
        apply Z.div_lt_upper_bound; lia. }
      specialize (IH (z / 256) (conj Hq Hb)).
      assert (Hl : 0 < len (magnitude_loop f (z / 256))).
      { destruct f; [simpl in Hb; lia|]. cbn [magnitude_loop].
        destruct (Z.eqb_spec (z / 256) 0); [lia|]. rewrite len_cons.
        pose proof (len_nonneg (magnitude_loop f (Z.shiftr (z / 256) 8))). lia. }
      replace (len (magnitude_loop f (z / 256)))
        with (Z.succ (len (magnitude_loop f (z / 256)) - 1)) by lia.
      rewrite Z.pow_succ_r by lia.
      pose proof (Z.mul_div_le z 256 ltac:(lia)). lia.
Qed.

(** X18. The bignum form carries no leading zero digit: for a positive
    integer, the digits the encoder's loop produces are exactly as many as
    the integer needs in base 256. *)
Theorem magnitude_minimal (z : Z) :
  0 < z ->
  256 ^ (len (magnitude z) - 1) <= z < 256 ^ len (magnitude z).
Proof.
  intros Hz. split.
  - unfold magnitude. apply magnitude_loop_minimal.
    pose proof (Z.log2_spec z Hz) as [_ H]. pose proof (Z.log2_nonneg z).
    rewrite Nat2Z.inj_succ, Z2Nat.id by lia. lia.
  - pose proof (le_value_bound (magnitude z)) as H.
    rewrite le_value_magnitude in H by lia. exact H.
Qed.

Lemma magnitude_minimal_witness :
  256 ^ (len (magnitude (2 ^ 100)) - 1) <= 2 ^ 100 < 256 ^ len (magnitude (2 ^ 100)).
Proof.
  apply (@magnitude_minimal (2 ^ 100)). reflexivity.
Defined.

(** ** The forms the encoder chooses *)

Section Forms.
Context {host : Host}.

Lemma array_B_bool_or_byte (l : list term) (b : bytes) :
  array_B int_long l = Some b -> Forall bool_or_byte l.
Proof.
  revert b. induction l as [|t l IH]; intros b H; [constructor|].
  cbn [array_B] in H. destruct (int_long t) as [z|] eqn:Et; [|discriminate].
  destruct ((0 <=? z) && (z <=? 255)) eqn:Ez; [|discriminate].
  destruct (array_B int_long l) as [b'|]; [|discriminate].
  apply andb_true_iff in Ez as [H0 H1]. apply Z.leb_le in H0, H1.
  constructor; [|now apply (IH b')].
  destruct t; try discriminate Et.
  - right. exists z0. injection Et as ->. split; [reflexivity|lia].
  - left. now eexists.
Qed.

(** X19. The compact string form is written only for what it can hold: if
    the encoding of a list starts with the tag [k], the list is not empty,
    has at most 65535 elements, and each is a boolean or an integer in [0,
    255]. *)
Theorem compact_form_only_for_bytes (l : list term) (b : bytes) :
  encode_term (List l) = Ok ("k"%byte :: b) ->
  l <> [] /\ len l <= 65535 /\ Forall bool_or_byte l.
Proof.
  cbn [encode_term]. unfold encode_list. intros H.
  destruct l as [|t l']; [discriminate H|]. split; [discriminate|].
  set (l := t :: l') in *.
  destruct (Z.leb_spec (len l) 65535) as [Hle|Hgt].
  - destruct (array_B int_long l) as [bb|] eqn:Eb.
    + split; [exact Hle|]. exact (array_B_bool_or_byte _ Eb).
    + destruct (join_map encode_term l); cbn [bind] in H; discriminate H.
  - destruct (len l >? 4294967295); [discriminate H|].
    destruct (join_map encode_term l); cbn [bind] in H; discriminate H.
Qed.

(** X20. An integer beyond 32 bits whose magnitude is below [256 ^ 255] is
    always encoded, in the small bignum form: tag [n], the number of digits
    (between 4 and 255), the sign byte (1 for a negative integer) and the
    little-endian digits of the magnitude. *)
Theorem small_bignum_form (z : Z) :
  z < -2147483648 \/ 2147483647 < z -> Z.abs z < 256 ^ 255 ->
  exists digits,
    encode_term (Int z) =
      Ok ("n"%byte :: chr (len digits) :: chr (if z <? 0 then 1 else 0) :: digits) /\
    4 <= len digits <= 255 /\ le_value digits = Z.abs z.
Proof.
  intros Hout Hhi. exists (magnitude (Z.abs z)).
  assert (Hlo : 2147483647 < Z.abs z) by lia.
  assert (Hpos : 0 < Z.abs z) by lia.
  assert (Hmag : 256 ^ (len (magnitude (Z.abs z)) - 1) <= Z.abs z <
                 256 ^ len (magnitude (Z.abs z))).
  { split.
    - unfold magnitude. apply magnitude_loop_minimal.
      pose proof (Z.log2_spec _ Hpos) as [_ H]. pose proof (Z.log2_nonneg (Z.abs z)).
      rewrite Nat2Z.inj_succ, Z2Nat.id by lia. lia.
    - pose proof (le_value_bound (magnitude (Z.abs z))) as H.
      rewrite le_value_magnitude in H by lia. exact H. }
  pose proof (len_nonneg (magnitude (Z.abs z))) as Hn.
  assert (Hlen : 4 <= len (magnitude (Z.abs z)) <= 255).
  { split.
    - destruct (Z_lt_le_dec (len (magnitude (Z.abs z))) 4) as [Hs|]; [|assumption].
      assert (256 ^ len (magnitude (Z.abs z)) <= 256 ^ 3)
        by (apply Z.pow_le_mono_r; lia).
      change (256 ^ 3) with 16777216 in *. lia.
    - destruct (Z_lt_le_dec 255 (len (magnitude (Z.abs z)))) as [Hs|]; [|lia].
      assert (256 ^ 255 <= 256 ^ (len (magnitude (Z.abs z)) - 1))
        by (apply Z.pow_le_mono_r; lia).
      lia. }
  split; [|split; [exact Hlen|apply le_value_magnitude; lia]].
  cbn [encode_term]. unfold encode_int.
  replace ((0 <=? z) && (z <=? 255)) with false
    by (symmetry; apply andb_false_iff;
        destruct (Z_lt_le_dec z 0); [left; apply Z.leb_gt|right; apply Z.leb_gt]; lia).
  replace ((-2147483648 <=? z) && (z <=? 2147483647)) with false
    by (symmetry; apply andb_false_iff;
        destruct (Z_lt_le_dec z 0); [left; apply Z.leb_gt|right; apply Z.leb_gt]; lia).
  destruct (Z.geb_spec z 0) as [Hz|Hz].
  - rewrite Z.abs_eq in * by lia.
    destruct (Z.ltb_spec z 0); [lia|].
    destruct (Z.leb_spec (len (magnitude z)) 255); [reflexivity|lia].
  - rewrite Z.abs_neq in * by lia.
    destruct (Z.ltb_spec z 0); [|lia].
    destruct (Z.leb_spec (len (magnitude (- z))) 255); [reflexivity|lia].
Qed.
End Forms.

Lemma compact_form_only_for_bytes_witness :
  [Bool true; Int 7] <> [] /\ len [Bool true; Int 7] <= 65535 /\
  Forall bool_or_byte [Bool true; Int 7].
Proof.
  apply (@compact_form_only_for_bytes sample_host [Bool true; Int 7]
           [x00; x02; x01; x07]).
  reflexivity.
Defined.

Lemma small_bignum_form_witness :
  exists digits,
    @encode_term sample_host (Int (- 2 ^ 100)) =
      Ok ("n"%byte :: chr (len digits) ::
          chr (if - 2 ^ 100 <? 0 then 1 else 0) :: digits) /\
    4 <= len digits <= 255 /\ le_value digits = Z.abs (- 2 ^ 100).
Proof.
  apply (@small_bignum_form sample_host (- 2 ^ 100)).
  - left. reflexivity.
  - reflexivity.
Defined.

(** ** Tags and element counts *)

Section Counts.
Context {host : Host}.

(** X21. A buffer that starts with a byte outside the twelve tags is refused
    at once, whatever follows: [decode_term] raises the "unsupported data"
    [ValueError], never [IncompleteData]. *)
Theorem unknown_tag_unsupported (c : byte) (s : bytes) :
  tag_in c (bs "djklhiabmFno") = false ->
  decode_term (c :: s) = Raise (ValueError "unsupported data").
Proof.
  intros Hc. apply (fuel_agree 1); [|discriminate].
  destruct c; try discriminate Hc; reflexivity.
Qed.

Lemma decode_while_count (f : nat) :
  forall n tail acc lst r,
    decode_while f n tail acc = Ok (lst, r) ->
    len lst = len acc + Z.max 0 n.
Proof.
  induction f as [|f IH]; intros n tail acc lst r H; cbn [decode_while] in H.
  - destruct (Z.gtb_spec n 0); [discriminate|]. injection H as <- <-. lia.
  - destruct (Z.gtb_spec n 0).
    + destruct (decode_term_fuel f tail) as [[t r1]| |]; cbn [bind] in H;
        try discriminate.
      apply IH in H. rewrite H, len_app. change (len [t]) with 1. lia.
    + injection H as <- <-. lia.
Qed.

(** X22. A list that [decode_term] returns has exactly as many elements as
    the header on the wire announces, and so has a tuple, unless it is what
    [loads] made of the data of an opaque 3-tuple. *)
Theorem decoded_element_count (large : bool) (n : Z) (body : bytes)
    (lst : list term) (r : bytes) :
  0 <= n <= (if large then 4294967295 else 255) ->
  (decode_term (tuple_header large n ++ body) = Ok (Tuple lst, r) ->
   len lst = n \/ (n = 3 /\ exists data, loads data = inr (Tuple lst))) /\
  (decode_term ("l"%byte :: pack_be 4 n ++ body) = Ok (List lst, r) ->
   len lst = n).
Proof.
  intros Hn. split.
  - unfold decode_term.
    destruct (2 * List.length (tuple_header large n ++ body) + 1)%nat as [|f];
      [discriminate|].
    rewrite decode_tuple_header by exact Hn.
    destruct (decode_while f n body []) as [[l r1]| |] eqn:Ew; cbn [bind];
      try discriminate.
    apply decode_while_count in Ew. change (len (@nil term)) with 0 in Ew.
    destruct ((len l =? 3) && str_eq (nth 0 l NoneV) marker) eqn:Em.
    + apply andb_true_iff in Em as [Em _]. apply Z.eqb_eq in Em.
      destruct (decode_opaque (nth 2 l NoneV) (nth 1 l NoneV)) as [o| |] eqn:Eo;
        cbn [bind]; try discriminate.
      intros H. injection H as -> _. right. split; [lia|].
      unfold decode_opaque, OpaqueObject_init in Eo.
      repeat step Eo; try discriminate Eo;
        match goal with
        | E : call (loads ?s) = Ok _ |- _ =>
            exists s; destruct (loads s); [discriminate E|];
            cbn [call] in E; congruence
        end.
    + intros H. injection H as <- _. left. lia.
  - unfold decode_term.
    destruct (2 * List.length ("l"%byte :: pack_be 4 n ++ body) + 1)%nat as [|f];
      [discriminate|].
    rewrite decode_list_header by (destruct large; lia).
    destruct (decode_while f n body []) as [[l r1]| |] eqn:Ew; cbn [bind];
      try discriminate.
    apply decode_while_count in Ew. change (len (@nil term)) with 0 in Ew.
    destruct r1 as [|c r1']; [discriminate|].
    destruct (negb (Byte.eqb c "j")).
    + destruct (decode_term_fuel f (c :: r1')) as [[it r2]| |]; cbn [bind];
        try discriminate.
      unfold ImproperList_init. destruct l; [discriminate|].
      destruct (is_list it); discriminate.
    + intros H. injection H as <- _. lia.
Qed.
End Counts.

Lemma unknown_tag_unsupported_witness :
  @decode_term sample_host ["c"%byte; x00] = Raise (ValueError "unsupported data").
Proof.
  apply (@unknown_tag_unsupported sample_host "c" [x00]). reflexivity.
Defined.

Lemma decoded_element_count_witness :
  len [Int 1; Int 2] = 2 \/
  (2 = 3 /\ exists data, @loads sample_host data = inr (Tuple [Int 1; Int 2])).
Proof.
  apply (proj1 (@decoded_element_count sample_host false 2
                  ["a"%byte; x01; "a"%byte; x02] [Int 1; Int 2] []
                  ltac:(lia))).
  reflexivity.
Defined.

(** ** The values the decoder builds *)

Section Shape.
Context {host : Host}.
Hypothesis loads_shape :
  forall data v, loads data = inr v -> decoded_shape v = true.

Lemma shape_nth (l : list term) (i : nat) :
  forallb decoded_shape l = true -> decoded_shape (nth i l NoneV) = true.
Proof.
  intros H. rewrite forallb_forall in H.
  destruct (Nat.lt_ge_cases i (List.length l)) as [Hi|Hi].
  - apply H, nth_In, Hi.
  - now rewrite nth_overflow.
Qed.

Lemma len_slice_le (i j : Z) (s : bytes) : len (slice i j s) <= Z.max 0 (j - i).
Proof.
  unfold slice, len. rewrite length_firstn. lia.
Qed.

Lemma shape_opaque (d l o : term) :
  decoded_shape d = true -> decoded_shape l = true ->
  decode_opaque d l = Ok o -> decoded_shape o = true.
Proof.
  intros Hd Hl H. unfold decode_opaque in H.
  destruct (str_eq l python) eqn:Epy.
  - destruct d; try discriminate H;
      (destruct (loads s) as [err|v] eqn:Ev; [discriminate H|];
       injection H as <-; exact (loads_shape _ Ev)).
  - unfold OpaqueObject_init in H.
    destruct d; try discriminate H; destruct l; try discriminate H;
      injection H as <-; cbn [decoded_shape str_eq] in *;
      rewrite Epy; cbn [negb]; rewrite ?andb_true_r; try exact Hl.
    now rewrite Hl, Hd.
Qed.

Lemma decode_shape (f : nat) :
  (forall s t r, decode_term_fuel f s = Ok (t, r) -> decoded_shape t = true) /\
  (forall n s acc lst r, decode_while f n s acc = Ok (lst, r) ->
     forallb decoded_shape acc = true -> forallb decoded_shape lst = true).
Proof.
  induction f as [|f [IHt IHw]]; split.
  - discriminate.
  - intros n s acc lst r H Hacc. cbn [decode_while] in H.
    destruct (n >? 0); [discriminate|]. now injection H as <- _.
  - intros s t r H. cbn [decode_term_fuel] in H.
    destruct s as [|tag s']; [discriminate|].
    set (string := tag :: s') in *. clearbody string.
    repeat step H;
      try (injection H as <- _; cbn [decoded_shape]; reflexivity).
    all: try match goal with
      | Ew : decode_while _ _ _ [] = Ok (?l, _) |- _ =>
          assert (Hl : forallb decoded_shape l = true)
            by (exact (IHw _ _ _ _ _ Ew eq_refl))
      end.
    + (* an atom *)
      injection H as <- _.
      match goal with
      | Ea : Atom ?name = Ok _, E1 : bytes_eqb ?name (bs "true") = false,
        E2 : bytes_eqb ?name (bs "false") = false,
        E3 : bytes_eqb ?name (bs "undefined") = false |- _ =>
          unfold Atom in Ea; destruct (Z.gtb_spec (len name) 255);
          [discriminate Ea|]; injection Ea as <-;
          cbn [decoded_shape]; unfold literal_name; rewrite E1, E2, E3
      end.
      cbn [orb negb]. rewrite andb_true_r. apply Z.leb_le. lia.
    + (* a string of bytes *)
      injection H as <- _. cbn [decoded_shape]. apply forallb_forall.
      intros x Hx. apply in_map_iff in Hx as (c & <- & _). reflexivity.
    + (* an improper list *)
      injection H as <- _.
      match goal with
      | Ei : ImproperList_init ?l ?it = Ok _,
        Et : decode_term_fuel _ _ = Ok (?it, _) |- _ =>
          apply IHt in Et; unfold ImproperList_init in Ei;
          destruct l as [|x l']; [discriminate Ei|];
          destruct (is_list it) eqn:El; [discriminate Ei|];
          injection Ei as <-; cbn [decoded_shape];
          rewrite Hl, Et, El
      end.
      rewrite len_cons. pose proof (len_nonneg l').
      destruct (Z.eqb_spec (1 + len l') 0); [lia|reflexivity].
    + (* a list *)
      injection H as <- _. exact Hl.
    + (* an opaque object *)
      injection H as <- _.
      match goal with
      | Eo : decode_opaque _ _ = Ok _ |- _ =>
          apply (shape_opaque _ _ (shape_nth _ 2 Hl) (shape_nth _ 1 Hl) Eo)
      end.
    + (* a tuple *)
      injection H as <- _. cbn [decoded_shape]. rewrite Hl.
      match goal with
      | E : (_ && _) = false |- _ => rewrite E
      end.
      reflexivity.
    + (* a float *)
      injection H as <- _. cbn [decoded_shape].
      pose proof (unpack_be_nonneg (slice 1 9 string)).
      assert (unpack_be (slice 1 9 string) < 2 ^ 64).
      { unfold unpack_be.
        pose proof (le_value_bound (rev (slice 1 9 string))) as Hb.
        assert (Hlen : len (rev (slice 1 9 string)) <= 8).
        { unfold len. rewrite length_rev. pose proof (len_slice_le 1 9 string).
          unfold len in *. lia. }
        pose proof (len_nonneg (rev (slice 1 9 string))).
        assert (256 ^ len (rev (slice 1 9 string)) <= 256 ^ 8)
          by (apply Z.pow_le_mono_r; lia).
        change (2 ^ 64) with (256 ^ 8). lia. }
      apply andb_true_iff. split; [apply Z.leb_le|apply Z.ltb_lt]; lia.
  - intros n s acc lst r H Hacc. cbn [decode_while] in H.
    destruct (n >? 0); [|now injection H as <- _].
    destruct (decode_term_fuel f s) as [[t r1]| |] eqn:Et; cbn [bind] in H;
      try discriminate.
    apply IHw in H; [exact H|].
    rewrite forallb_app, Hacc. cbn [forallb]. now rewrite (IHt _ _ _ Et).
Qed.

End Shape.

